(** * WebSocketProxy (src/websocket.ts): a shallow embedding

    The proxy is an event-driven, single-threaded Node program: every
    callback runs to completion on the state of one [WebSocketProxy]
    object.  The embedding keeps that shape.  A [State] holds the fields of
    the object and the part of the runtime the callbacks read (the
    [readyState] of each WebSocket, [wss.clients], the armed intervals, the
    stdin pipe of the agent); each callback of the source is a state
    transformer with the source's name; [dispatch] plays the event loop.

    Every externally visible action (console output, [close], [send],
    [ping], [stdin.write], [kill], [process.exit]) and every write of
    [this.currentClient] is appended to [trace], so that the order of
    actions inside one callback can be stated. *)

From Stdlib Require Import ZArith NArith String.
From stdpp Require Import base decidable option list strings gmap.

Local Open Scope Z_scope.

(** ** Data *)

(** A [Buffer] is a sequence of bytes. *)
Abbreviation Buffer := (list Byte.byte).

(** WebSocket objects are compared by identity ([===]) in the source; a
    [WS] is the identity of one such object, allocated by the server when
    it accepts a connection. *)
Abbreviation WS := nat.

(** [WebSocket.readyState]. *)
Inductive ReadyState := CONNECTING | OPEN | CLOSING | CLOSED.

#[global] Instance ReadyState_eq_dec : EqDecision ReadyState.
Proof. solve_decision. Defined.

Inductive Signal := SIGINT | SIGTERM.

#[global] Instance Signal_eq_dec : EqDecision Signal.
Proof. solve_decision. Defined.

#[global] Instance byte_eq_dec : EqDecision Byte.byte.
Proof. intros a b. destruct (Byte.byte_eq_dec a b); [left | right]; assumption. Defined.

(** Lines written to the console.  The fixed texts are kept as strings;
    the lines whose text is computed from a value carry that value (the
    two forwarding lines render their payload for diagnosis only:
    [JSON.stringify (JSON.parse s)] when [s] parses, [s] otherwise). *)
Inductive LogLine :=
| Text (s : string)
| ClientToAgent (data : Buffer)
| AgentToClient (data : Buffer)
| AgentExitedWith (code : option Z)
| ReceivedSignal (sig : Signal).

#[global] Instance LogLine_eq_dec : EqDecision LogLine.
Proof. solve_decision. Defined.

Inductive Effect :=
| Log (m : LogLine)                      (* this.log(m)  *)
| ConsoleError (m : LogLine)             (* console.error(...) *)
| ConsoleLog (m : LogLine)               (* console.log(...) *)
| SetCurrentClient (v : option WS)       (* this.currentClient = v *)
| WsClose (ws : WS)                      (* ws.close() *)
| WsSend (ws : WS) (data : Buffer)       (* ws.send(data) *)
| WsPing (ws : WS)                       (* ws.ping() *)
| StdinWrite (data : Buffer)             (* agent.stdin.write(data) *)
| SetInterval (ws : WS)                  (* setInterval(..., 30000) *)
| ClearInterval (ws : WS)                (* clearInterval(pingInterval) *)
| WssClose                               (* wss.close(cb) *)
| AgentKill                              (* agent.kill() *)
| ProcessExit (code : Z).                (* process.exit(code) *)

#[global] Instance Effect_eq_dec : EqDecision Effect.
Proof. solve_decision. Defined.

(** The writable end of the agent's stdin pipe: whether it is
    [writable], and the chunks written to it so far, oldest first. *)
Record Stdin := mkStdin {
  writable : bool;
  written : list Buffer
}.

Record State := mkState {
  currentClient : option WS;         (* this.currentClient *)
  sockets : gmap WS ReadyState;      (* readyState of every accepted socket *)
  wss_clients : list WS;             (* this.wss.clients, in insertion order *)
  wss_closing : bool;                (* wss.close has been called *)
  next_ws : WS;                      (* identity of the next accepted socket *)
  timers : list (WS * N);            (* armed intervals: owner, due time (ms) *)
  clock : N;                         (* milliseconds since start *)
  agent_stdin : option Stdin;        (* this.agent.stdin *)
  agent_killed : bool;               (* this.agent.killed *)
  exited : option Z;                 (* Some c once process.exit(c) ran *)
  trace : list Effect                (* actions so far, oldest first *)
}.

(** Field updates. *)
Definition set_currentClient (v : option WS) (st : State) : State :=
  mkState v (sockets st) (wss_clients st) (wss_closing st) (next_ws st)
          (timers st) (clock st) (agent_stdin st) (agent_killed st)
          (exited st) (trace st).

Definition set_sockets (m : gmap WS ReadyState) (st : State) : State :=
  mkState (currentClient st) m (wss_clients st) (wss_closing st) (next_ws st)
          (timers st) (clock st) (agent_stdin st) (agent_killed st)
          (exited st) (trace st).

Definition set_wss_clients (l : list WS) (st : State) : State :=
  mkState (currentClient st) (sockets st) l (wss_closing st) (next_ws st)
          (timers st) (clock st) (agent_stdin st) (agent_killed st)
          (exited st) (trace st).

Definition set_wss_closing (b : bool) (st : State) : State :=
  mkState (currentClient st) (sockets st) (wss_clients st) b (next_ws st)
          (timers st) (clock st) (agent_stdin st) (agent_killed st)
          (exited st) (trace st).

Definition set_next_ws (n : WS) (st : State) : State :=
  mkState (currentClient st) (sockets st) (wss_clients st) (wss_closing st) n
          (timers st) (clock st) (agent_stdin st) (agent_killed st)
          (exited st) (trace st).

Definition set_timers (l : list (WS * N)) (st : State) : State :=
  mkState (currentClient st) (sockets st) (wss_clients st) (wss_closing st)
          (next_ws st) l (clock st) (agent_stdin st) (agent_killed st)
          (exited st) (trace st).

Definition set_clock (t : N) (st : State) : State :=
  mkState (currentClient st) (sockets st) (wss_clients st) (wss_closing st)
          (next_ws st) (timers st) t (agent_stdin st) (agent_killed st)
          (exited st) (trace st).

Definition set_agent_stdin (s : option Stdin) (st : State) : State :=
  mkState (currentClient st) (sockets st) (wss_clients st) (wss_closing st)
          (next_ws st) (timers st) (clock st) s (agent_killed st)
          (exited st) (trace st).

Definition set_agent_killed (b : bool) (st : State) : State :=
  mkState (currentClient st) (sockets st) (wss_clients st) (wss_closing st)
          (next_ws st) (timers st) (clock st) (agent_stdin st) b
          (exited st) (trace st).

Definition set_exited (c : option Z) (st : State) : State :=
  mkState (currentClient st) (sockets st) (wss_clients st) (wss_closing st)
          (next_ws st) (timers st) (clock st) (agent_stdin st)
          (agent_killed st) c (trace st).

Definition emit (e : Effect) (st : State) : State :=
  mkState (currentClient st) (sockets st) (wss_clients st) (wss_closing st)
          (next_ws st) (timers st) (clock st) (agent_stdin st)
          (agent_killed st) (exited st) (trace st ++ [e]).

(** Statements are state transformers; [s1 ;; s2] runs [s1], then [s2]. *)
Definition Stmt := State -> State.

Definition seq_stmt (s1 s2 : Stmt) : Stmt := fun st => s2 (s1 st).
Declare Scope stmt_scope.
Delimit Scope stmt_scope with stmt.
Bind Scope stmt_scope with Stmt.
Notation "s1 ;; s2" := (seq_stmt s1 s2)
  (at level 100, s2 at level 200, right associativity) : stmt_scope.
Local Open Scope stmt_scope.

(** ** The runtime the callbacks call into *)

(** [this.log(message)]: one line on the console's error stream. *)
Definition log (m : LogLine) : Stmt := emit (Log m).

(** [ws.close()] of the ws package: starts the closing handshake of a
    socket that is not yet closing; nothing changes for one that is
    closing or closed.  The ["close"] event comes later, as an event of its
    own. *)
Definition ws_close (ws : WS) : Stmt :=
  emit (WsClose ws) ;;
  (fun st =>
     match sockets st !! ws with
     | Some CLOSED | Some CLOSING | None => st
     | Some _ => set_sockets (<[ws := CLOSING]> (sockets st)) st
     end).

Definition ws_send (ws : WS) (data : Buffer) : Stmt := emit (WsSend ws data).

Definition ws_ping (ws : WS) : Stmt := emit (WsPing ws).

(** [this.agent.stdin.write(data)]: the chunk joins the pipe.  What Node
    does when the pipe fails later (an ["error"] event of [agent.stdin],
    on which the proxy registers no listener) is not part of the model,
    which follows the calls the proxy makes. *)
Definition stdin_write (data : Buffer) : Stmt :=
  emit (StdinWrite data) ;;
  (fun st =>
     match agent_stdin st with
     | Some s => set_agent_stdin (Some (mkStdin (writable s) (written s ++ [data]))) st
     | None => st
     end).

(** The period of the liveness probe, in milliseconds. *)
Definition PING_INTERVAL : N := 30000%N.

(** [setInterval(cb, 30000)] for the socket [ws]: first due one period
    from now. *)
Definition setInterval (ws : WS) : Stmt :=
  emit (SetInterval ws) ;;
  (fun st => set_timers (timers st ++ [(ws, (clock st + PING_INTERVAL)%N)]) st).

(** [clearInterval(pingInterval)] inside the closure of [ws]. *)
Definition clearInterval (ws : WS) : Stmt :=
  emit (ClearInterval ws) ;;
  (fun st => set_timers (filter (fun p => p.1 <> ws) (timers st)) st).

Definition process_exit (code : Z) : Stmt :=
  emit (ProcessExit code) ;; set_exited (Some code).

(** ** The callbacks of [WebSocketProxy] *)

(** [ws.on("message", ...)], lines 61-75. *)
Definition on_message (ws : WS) (data : Buffer) : Stmt :=
  log (ClientToAgent data) ;;
  (fun st =>
     match agent_stdin st with
     | Some s =>
         if writable s then stdin_write data st
         else log (Text "Warning: Agent stdin is not writable") st
     | None => log (Text "Warning: Agent stdin is not writable") st
     end).

(** [ws.on("close", ...)], lines 77-82. *)
Definition on_close (ws : WS) : Stmt :=
  log (Text "Client disconnected") ;;
  (fun st =>
     if decide (currentClient st = Some ws)
     then (emit (SetCurrentClient None) ;; set_currentClient None) st
     else st).

(** [ws.on("error", ...)], lines 84-86. *)
Definition on_ws_error (ws : WS) : Stmt :=
  emit (ConsoleError (Text "[WebSocket Proxy] Client error:")).

(** The callback given to [setInterval], lines 89-95. *)
Definition ping_callback (ws : WS) : Stmt :=
  fun st =>
    if decide (sockets st !! ws = Some OPEN)
    then ws_ping ws st
    else clearInterval ws st.

(** [ws.on("pong", ...)], lines 97-99. *)
Definition on_pong (ws : WS) : Stmt :=
  log (Text "Received pong from client").

(** [wss.on("connection", ...)], lines 50-100.  The four listeners are
    registered on [ws] here; [dispatch] routes the events of a socket to
    them. *)
Definition on_connection (ws : WS) : Stmt :=
  log (Text "Client connected") ;;
  (fun st =>
     match currentClient st with
     | Some old =>
         (log (Text "Closing existing client connection") ;; ws_close old) st
     | None => st
     end) ;;
  emit (SetCurrentClient (Some ws)) ;; set_currentClient (Some ws) ;;
  setInterval ws.

(** [wss.on("error", ...)], lines 102-104. *)
Definition on_wss_error : Stmt :=
  emit (ConsoleError (Text "[WebSocket Proxy] Server error:")).

(** [agent.stdout.on("data", ...)], lines 110-124. *)
Definition on_stdout_data (data : Buffer) : Stmt :=
  log (AgentToClient data) ;;
  (fun st =>
     match currentClient st with
     | Some c =>
         if decide (sockets st !! c = Some OPEN)
         then ws_send c data st
         else log (Text "No active client to forward message to") st
     | None => log (Text "No active client to forward message to") st
     end).

(** [wss.clients.forEach((client) => client.close())]: the sockets of
    the list are closed one after the other. *)
Definition close_all (l : list WS) (st : State) : State :=
  foldl (fun s c => ws_close c s) st l.

(** [shutdown(exitCode)], lines 139-158.  The callback given to
    [wss.close] never runs: [process.exit] ends the program first.
    [agent.kill()] is taken to deliver its signal, which sets
    [agent.killed]. *)
Definition shutdown (exitCode : Z) : Stmt :=
  log (Text "Shutting down WebSocket proxy server") ;;
  (fun st => close_all (wss_clients st) st) ;;
  emit WssClose ;; set_wss_closing true ;;
  (fun st =>
     if agent_killed st then st
     else (emit AgentKill ;; set_agent_killed true) st) ;;
  process_exit exitCode.

(** [code || 0] for [code : number | null]. *)
Definition code_or_0 (code : option Z) : Z :=
  match code with
  | Some n => if (n =? 0) then 0 else n
  | None => 0
  end.

(** [agent.on("exit", ...)], lines 128-131. *)
Definition on_agent_exit (code : option Z) : Stmt :=
  emit (ConsoleError (AgentExitedWith code)) ;;
  shutdown (code_or_0 code).

(** [agent.on("error", ...)], lines 133-136. *)
Definition on_agent_error : Stmt :=
  emit (ConsoleError (Text "[WebSocket Proxy] Agent error:")) ;;
  shutdown 1.

(** [process.on("SIGINT" / "SIGTERM", ...)], lines 169-177. *)
Definition on_signal (sig : Signal) : Stmt :=
  emit (ConsoleLog (ReceivedSignal sig)) ;;
  shutdown 0.

(** ** The event loop *)

(** What the runtime can deliver to the program.  [EvConnection] is a new
    peer accepted by the server; [EvPeerClosing] is the closing handshake
    started by the peer; [EvStdinEnd] is the agent's stdin pipe ceasing to
    be writable; [EvElapse dt] is [dt] milliseconds passing with no other
    event. *)
Inductive Event :=
| EvConnection
| EvMessage (ws : WS) (data : Buffer)
| EvPeerClosing (ws : WS)
| EvClose (ws : WS)
| EvWsError (ws : WS)
| EvPong (ws : WS)
| EvWssError
| EvAgentStdout (data : Buffer)
| EvStdinEnd
| EvAgentExit (code : option Z)
| EvAgentError
| EvSignal (sig : Signal)
| EvElapse (dt : N).

#[global] Instance Event_eq_dec : EqDecision Event.
Proof. solve_decision. Defined.

(** A socket emits events from the moment it is accepted until its
    ["close"] event. *)
Definition live (st : State) (ws : WS) : bool :=
  match sockets st !! ws with
  | Some CLOSED | None => false
  | Some _ => true
  end.

(** The server accepts a peer: a new WebSocket, open, added to
    [wss.clients]; then the ["connection"] listener runs on it. *)
Definition accept : Stmt :=
  fun st =>
    let ws := next_ws st in
    (set_sockets (<[ws := OPEN]> (sockets st)) ;;
     set_wss_clients
       (if decide (ws ∈ wss_clients st) then wss_clients st
        else wss_clients st ++ [ws]) ;;
     set_next_ws (S ws) ;;
     on_connection ws) st.

(** The ["close"] event of [ws]: the socket is closed, the server's own
    listener (registered first) removes it from [wss.clients], then the
    proxy's listener runs. *)
Definition closed (ws : WS) : Stmt :=
  (fun st => set_sockets (<[ws := CLOSED]> (sockets st)) st) ;;
  (fun st => set_wss_clients (filter (fun c => c <> ws) (wss_clients st)) st) ;;
  on_close ws.

(** The peer starts the closing handshake of an open socket. *)
Definition peer_closing (ws : WS) : Stmt :=
  fun st =>
    if decide (sockets st !! ws = Some OPEN)
    then set_sockets (<[ws := CLOSING]> (sockets st)) st
    else st.

Definition stdin_end : Stmt :=
  fun st =>
    match agent_stdin st with
    | Some s => set_agent_stdin (Some (mkStdin false (written s))) st
    | None => st
    end.

(** An interval that is still armed after its callback is due again one
    period later. *)
Definition rearm (ws : WS) : Stmt :=
  fun st =>
    set_timers
      (map (fun p : WS * N =>
              if decide (p.1 = ws) then (ws, (clock st + PING_INTERVAL)%N) else p)
           (timers st)) st.

Definition fire (ws : WS) : Stmt := ping_callback ws ;; rearm ws.

(** The intervals of a list fire one after the other. *)
Definition fire_all (l : list WS) (st : State) : State :=
  foldl (fun s ws => fire ws s) st l.

(** One millisecond passes: the intervals that are due fire, oldest
    first. *)
Definition tick : Stmt :=
  (fun st => set_clock (clock st + 1)%N st) ;;
  (fun st =>
     fire_all
       (map fst (filter (fun p : WS * N => p.2 = clock st) (timers st))) st).

Definition elapse (dt : N) : Stmt := fun st => N.iter dt tick st.

(** After [process.exit] no callback runs.  Before it, an event of a
    socket reaches the listeners only while the socket is live. *)
Definition dispatch (st : State) (ev : Event) : State :=
  match exited st with
  | Some _ => st
  | None =>
      match ev with
      | EvConnection => accept st
      | EvMessage ws data => if live st ws then on_message ws data st else st
      | EvPeerClosing ws => peer_closing ws st
      | EvClose ws => if live st ws then closed ws st else st
      | EvWsError ws => if live st ws then on_ws_error ws st else st
      | EvPong ws => if live st ws then on_pong ws st else st
      | EvWssError => on_wss_error st
      | EvAgentStdout data => on_stdout_data data st
      | EvStdinEnd => stdin_end st
      | EvAgentExit code => on_agent_exit code st
      | EvAgentError => on_agent_error st
      | EvSignal sig => on_signal sig st
      | EvElapse dt => elapse dt st
      end
  end.

Definition run (st : State) (evs : list Event) : State :=
  foldl dispatch st evs.

(** The state once the constructor has returned and the signal handlers
    of the entry point are installed: the agent is spawned with piped
    stdin and stdout, the server listens, no peer is connected. *)
Definition init : State :=
  mkState None ∅ [] false 0%nat [] 0%N (Some (mkStdin true [])) false None [].

(** ** Observations on a trace *)

(** The frames sent to peers, oldest first. *)
Definition sends (tr : list Effect) : list (WS * Buffer) :=
  omap (fun e => match e with WsSend c d => Some (c, d) | _ => None end) tr.

(** The liveness probes sent to [ws]. *)
Definition pings_to (ws : WS) (tr : list Effect) : list Effect :=
  filter (fun e => e = WsPing ws) tr.

(** The sessions that are Active: the connected peers that
    [this.currentClient] refers to. *)
Definition active_sessions (st : State) : list WS :=
  filter (fun c => currentClient st = Some c) (wss_clients st).

(** The interval of [ws] is armed. *)
Definition armed (st : State) (ws : WS) : Prop := ws ∈ map fst (timers st).

#[global] Instance armed_dec st ws : Decision (armed st ws).
Proof. unfold armed. apply _. Defined.

(** ** Definitions used in the statements and proofs *)

(** [same_session st st']: the two states differ at most in the clock, the
    armed intervals and the trace. *)
Record same_session (st st' : State) : Prop := {
  ss_current : currentClient st' = currentClient st;
  ss_sockets : sockets st' = sockets st;
  ss_clients : wss_clients st' = wss_clients st;
  ss_closing : wss_closing st' = wss_closing st;
  ss_next : next_ws st' = next_ws st;
  ss_stdin : agent_stdin st' = agent_stdin st;
  ss_killed : agent_killed st' = agent_killed st;
  ss_exited : exited st' = exited st
}.

(** A socket is connected from the moment it is accepted until its
    ["close"] event. *)
Definition connected (socks : gmap WS ReadyState) (c : WS) : Prop :=
  exists rs, socks !! c = Some rs /\ rs <> CLOSED.

(** What holds of the sockets in every state the program reaches:
    [wss.clients] has no duplicates and holds exactly the connected
    sockets, every socket known to the runtime was allocated before
    [next_ws], and [this.currentClient] refers to a connected peer. *)
Definition wf_session (cur : option WS) (socks : gmap WS ReadyState)
    (clients : list WS) (next : WS) : Prop :=
  NoDup clients /\
  (forall c, c ∈ clients <-> connected socks c) /\
  (forall c, is_Some (socks !! c) -> (c < next)%nat) /\
  (forall c, cur = Some c -> c ∈ clients).

Definition wf (st : State) : Prop :=
  wf_session (currentClient st) (sockets st) (wss_clients st) (next_ws st).

(** The stdin pipe, if there is one and it can be written to. *)
Definition stdin_writable (st : State) : bool :=
  match agent_stdin st with
  | Some s => writable s
  | None => false
  end.

Definition stdin_written (st : State) : list Buffer :=
  match agent_stdin st with
  | Some s => written s
  | None => []
  end.

(** The frames an event makes the proxy send: a chunk of agent output
    goes to the current client when its socket is open; no other event
    sends anything. *)
Definition outbound (st : State) (ev : Event) : list (WS * Buffer) :=
  match exited st, ev with
  | None, EvAgentStdout data =>
      match currentClient st with
      | Some c => if decide (sockets st !! c = Some OPEN) then [(c, data)] else []
      | None => []
      end
  | _, _ => []
  end.

(** Every armed interval is due within one period. *)
Definition timers_ok (st : State) : Prop :=
  forall c d, (c, d) ∈ timers st ->
              (clock st < d <= clock st + PING_INTERVAL)%N.

(** [closed_since st0 c st]: the socket [c] is closed in [st], no probe
    has gone to it since [st0], and whatever interval of [c] is still
    armed was armed in [st0] and is not yet due. *)
Definition closed_since (st0 : State) (c : WS) (st : State) : Prop :=
  sockets st !! c = Some CLOSED /\
  pings_to c (trace st) = pings_to c (trace st0) /\
  (forall d, (c, d) ∈ timers st -> (c, d) ∈ timers st0 /\ (clock st < d)%N).

(** The payloads of the messages of [ws] among the events [evs], in
    order. *)
Definition inbound (ws : WS) (evs : list Event) : list Buffer :=
  omap (fun ev => match ev with
                  | EvMessage c d => if decide (c = ws) then Some d else None
                  | _ => None
                  end) evs.

(** The events during which [ws] stays connected, is the only peer
    sending messages, the stdin pipe stays writable and the program keeps
    running. *)
Definition keeps_pipe (ws : WS) (ev : Event) : bool :=
  match ev with
  | EvMessage c _ => bool_decide (c = ws)
  | EvClose c => negb (bool_decide (c = ws))
  | EvStdinEnd | EvAgentExit _ | EvAgentError | EvSignal _ => false
  | _ => true
  end.

(** The chunks of agent output among the events [evs], in order. *)
Definition chunks (evs : list Event) : list Buffer :=
  omap (fun ev => match ev with
                  | EvAgentStdout d => Some d
                  | _ => None
                  end) evs.

(** The payloads of all the messages among the events [evs], in
    order. *)
Definition messages (evs : list Event) : list Buffer :=
  omap (fun ev => match ev with
                  | EvMessage _ d => Some d
                  | _ => None
                  end) evs.

(** The payload an event makes the proxy write to the agent's stdin: that
    of a message of a live socket, while stdin is writable. *)
Definition delivered (st : State) (ev : Event) : list Buffer :=
  match exited st, ev with
  | None, EvMessage ws d =>
      if live st ws && stdin_writable st then [d] else []
  | _, _ => []
  end.

(** The exit code an event makes the proxy pass to [process.exit], if
    any: [code || 0] for the agent's ["exit"], 1 for the agent's
    ["error"], 0 for a signal. *)
Definition terminal_code (ev : Event) : option Z :=
  match ev with
  | EvAgentExit code => Some (code_or_0 code)
  | EvAgentError => Some 1
  | EvSignal _ => Some 0
  | _ => None
  end.

(** Every socket that is open is the current client. *)
Definition open_is_current (st : State) : Prop :=
  forall c, sockets st !! c = Some OPEN -> currentClient st = Some c.

(** The armed intervals, one per socket at most: every open socket has
    its interval armed, and every interval belongs to a socket accepted
    earlier. *)
Definition timers_wf (st : State) : Prop :=
  NoDup (map fst (timers st)) /\
  (forall c, sockets st !! c = Some OPEN -> c ∈ map fst (timers st)) /\
  (forall c, c ∈ map fst (timers st) -> (c < next_ws st)%nat).

(** ** Configuration *)

(** [interface ProxyOptions], lines 9-13: every field may be absent. *)
Record ProxyOptions (number : Type) := mkProxyOptions {
  port : option number;
  host : option string;
  debug : option bool
}.

Arguments mkProxyOptions {number}.
Arguments port {number}.
Arguments host {number}.
Arguments debug {number}.

Section Configuration.

(** JavaScript numbers are kept abstract: the proxy only passes them on.
    [number_8765] is the literal [8765]; [parseInt] is the built-in. *)
Variable number : Type.
Variable number_8765 : number.
Variable parseInt : string -> number.

(** [const { port = 8765, host = "localhost", debug = false } = options],
    line 22: a default replaces an absent field. *)
Definition resolved_port (o : ProxyOptions number) : number :=
  default number_8765 (port o).

Definition resolved_host (o : ProxyOptions number) : string :=
  default "localhost"%string (host o).

Definition resolved_debug (o : ProxyOptions number) : bool :=
  default false (debug o).

(** [this.debug = debug || process.env.ACP_DEBUG === "true"], line 23. *)
Definition proxy_debug (o : ProxyOptions number) (env : gmap string string)
    : bool :=
  resolved_debug o || bool_decide (env !! "ACP_DEBUG"%string = Some "true"%string).

(** The environment given to the agent, lines 31-34:
    [{ ...process.env, ACP_DEBUG: this.debug ? "true" : "false" }]. *)
Definition agent_env (o : ProxyOptions number) (env : gmap string string)
    : gmap string string :=
  <["ACP_DEBUG"%string :=
      if proxy_debug o env then "true"%string else "false"%string]> env.

(** [process.env.X || d]: the default stands in for a variable that is
    unset or empty. *)
Definition or_default (v : option string) (d : string) : string :=
  match v with
  | Some s => if decide (s = ""%string) then d else s
  | None => d
  end.

(** The options of the entry point, lines 163-166. *)
Definition cli_options (env : gmap string string) : ProxyOptions number :=
  {| port := Some (parseInt (or_default (env !! "WS_PORT"%string) "8765"%string));
     host := Some (or_default (env !! "WS_HOST"%string) "localhost"%string);
     debug := None |}.

End Configuration.

Arguments resolved_port {number}.
Arguments resolved_host {number}.
Arguments resolved_debug {number}.
Arguments proxy_debug {number}.
Arguments agent_env {number}.
Arguments cli_options {number}.

(** The events during which [ws] stays connected, the stdin pipe stays
    writable and the program keeps running; other peers may send messages
    meanwhile. *)
Definition keeps_open (ws : WS) (ev : Event) : bool :=
  match ev with
  | EvClose c => negb (bool_decide (c = ws))
  | EvStdinEnd | EvAgentExit _ | EvAgentError | EvSignal _ => false
  | _ => true
  end.

(** The messages among the events [evs], each with its sender, in
    order. *)
Definition tagged (evs : list Event) : list (WS * Buffer) :=
  omap (fun ev => match ev with
                  | EvMessage c d => Some (c, d)
                  | _ => None
                  end) evs.

(** [delivered], with the sender of the message. *)
Definition delivered_from (st : State) (ev : Event) : list (WS * Buffer) :=
  match exited st, ev with
  | None, EvMessage c d =>
      if live st c && stdin_writable st then [(c, d)] else []
  | _, _ => []
  end.

(** The calls of [clearInterval] for the interval of [ws]. *)
Definition clears_of (ws : WS) (tr : list Effect) : list Effect :=
  filter (fun e => e = ClearInterval ws) tr.

(** The codes of the calls of [process.exit], oldest first. *)
Definition exit_calls (tr : list Effect) : list Z :=
  omap (fun e => match e with ProcessExit c => Some c | _ => None end) tr.

(** ** Closing sockets and shutting down *)

Lemma code_or_0_some (n : Z) : code_or_0 (Some n) = n.
Proof.
  unfold code_or_0. destruct (Z.eqb_spec n 0) as [-> | _]; reflexivity.
Qed.

Lemma ws_close_trace c st : trace (ws_close c st) = trace st ++ [WsClose c].
Proof.
  unfold ws_close, seq_stmt. cbn.
  destruct (sockets st !! c) as [[] |]; reflexivity.
Qed.

Lemma close_all_trace l : forall st,
  trace (close_all l st) = trace st ++ map WsClose l.
Proof.
  induction l as [| c l IH]; intros st; cbn.
  - by rewrite app_nil_r.
  - unfold close_all in IH. rewrite IH, ws_close_trace.
    by rewrite <- app_assoc.
Qed.

Lemma ws_close_fields c st :
  currentClient (ws_close c st) = currentClient st /\
  wss_clients (ws_close c st) = wss_clients st /\
  wss_closing (ws_close c st) = wss_closing st /\
  next_ws (ws_close c st) = next_ws st /\
  timers (ws_close c st) = timers st /\
  clock (ws_close c st) = clock st /\
  agent_stdin (ws_close c st) = agent_stdin st /\
  agent_killed (ws_close c st) = agent_killed st /\
  exited (ws_close c st) = exited st.
Proof.
  unfold ws_close, seq_stmt. cbn.
  destruct (sockets st !! c) as [[] |]; cbn; tauto.
Qed.

Lemma close_all_fields l : forall st,
  currentClient (close_all l st) = currentClient st /\
  wss_clients (close_all l st) = wss_clients st /\
  wss_closing (close_all l st) = wss_closing st /\
  next_ws (close_all l st) = next_ws st /\
  timers (close_all l st) = timers st /\
  clock (close_all l st) = clock st /\
  agent_stdin (close_all l st) = agent_stdin st /\
  agent_killed (close_all l st) = agent_killed st /\
  exited (close_all l st) = exited st.
Proof.
  induction l as [| c l IH]; intros st; cbn; [tauto |].
  specialize (IH (ws_close c st)). unfold close_all in IH.
  pose proof (ws_close_fields c st) as H.
  destruct IH as (-> & -> & -> & -> & -> & -> & -> & -> & ->). exact H.
Qed.

(** [ws.close()] never opens a socket, and leaves the other sockets as
    they are. *)
Lemma ws_close_sockets c st c' :
  sockets (ws_close c st) !! c' =
    if decide (c' = c)
    then match sockets st !! c with
         | Some CLOSED => Some CLOSED
         | Some _ => Some CLOSING
         | None => None
         end
    else sockets st !! c'.
Proof.
  unfold ws_close, seq_stmt. cbn. case_decide as E.
  - subst c'. destruct (sockets st !! c) as [[] |] eqn:Hc; cbn;
      rewrite ?lookup_insert_eq; done.
  - destruct (sockets st !! c) as [[] |] eqn:Hc; cbn;
      rewrite ?lookup_insert_ne; done.
Qed.

Lemma close_all_sockets l : forall st c',
  sockets (close_all l st) !! c' =
    if decide (c' ∈ l)
    then match sockets st !! c' with
         | Some CLOSED => Some CLOSED
         | Some _ => Some CLOSING
         | None => None
         end
    else sockets st !! c'.
Proof.
  induction l as [| c l IH]; intros st c'; cbn.
  - case_decide as E; [by apply elem_of_nil in E | done].
  - unfold close_all in IH. rewrite IH, !ws_close_sockets.
    destruct (decide (c' = c)) as [-> | Hne].
    + rewrite (decide_True (P := c ∈ c :: l)) by left.
      case_decide; destruct (sockets st !! c) as [[] |]; done.
    + destruct (decide (c' ∈ l)) as [Hin | Hnin].
      * rewrite (decide_True (P := c' ∈ c :: l)) by (by right). done.
      * rewrite (decide_False (P := c' ∈ c :: l)); [done |].
        intros [? | ?]%elem_of_cons; done.
Qed.

(** What [shutdown] does, in order. *)
Lemma shutdown_trace code st :
  trace (shutdown code st) =
    trace st
      ++ [Log (Text "Shutting down WebSocket proxy server")]
      ++ map WsClose (wss_clients st)
      ++ [WssClose]
      ++ (if agent_killed st then [] else [AgentKill])
      ++ [ProcessExit code].
Proof.
  unfold shutdown, seq_stmt, log, process_exit.
  set (st1 := close_all _ _).
  assert (agent_killed st1 = agent_killed st /\
          trace st1 = (trace st
                         ++ [Log (Text "Shutting down WebSocket proxy server")])
                        ++ map WsClose (wss_clients st)) as [Hk Ht].
  { subst st1. split.
    - by destruct (close_all_fields (wss_clients st)
                     (emit (Log (Text "Shutting down WebSocket proxy server")) st))
        as (_ & _ & _ & _ & _ & _ & _ & Hk & _).
    - apply close_all_trace. }
  clearbody st1. cbn. rewrite Hk.
  destruct (agent_killed st); cbn; rewrite Ht, <- !app_assoc; reflexivity.
Qed.

Lemma shutdown_exited code st : exited (shutdown code st) = Some code.
Proof.
  unfold shutdown, seq_stmt, process_exit. cbn. reflexivity.
Qed.

(** ** Time passing *)

Lemma same_session_refl st : same_session st st.
Proof. by split. Qed.

Lemma same_session_trans st1 st2 st3 :
  same_session st1 st2 -> same_session st2 st3 -> same_session st1 st3.
Proof.
  intros [] []. split; congruence.
Qed.

Lemma fire_same_session c st : same_session st (fire c st).
Proof.
  unfold fire, rearm, ping_callback, seq_stmt, clearInterval, ws_ping.
  case_decide; by split.
Qed.

Lemma fire_all_same_session l : forall st, same_session st (fire_all l st).
Proof.
  induction l as [| c l IH]; intros st; cbn.
  - apply same_session_refl.
  - eapply same_session_trans; [apply fire_same_session | apply IH].
Qed.

Lemma tick_same_session st : same_session st (tick st).
Proof.
  unfold tick, seq_stmt.
  eapply same_session_trans; [| apply fire_all_same_session]. by split.
Qed.

Lemma elapse_same_session dt st : same_session st (elapse dt st).
Proof.
  unfold elapse. induction dt as [| dt IH] using N.peano_ind.
  - apply same_session_refl.
  - rewrite N.iter_succ.
    eapply same_session_trans; [exact IH | apply tick_same_session].
Qed.

(** The callback of an interval: a probe for an open socket; for any
    other socket the interval is cleared and nothing is sent. *)
Lemma fire_open c st :
  sockets st !! c = Some OPEN ->
  trace (fire c st) = trace st ++ [WsPing c] /\
  clock (fire c st) = clock st /\
  timers (fire c st) =
    map (fun p : WS * N =>
           if decide (p.1 = c) then (c, (clock st + PING_INTERVAL)%N) else p)
        (timers st).
Proof.
  intros H. unfold fire, rearm, ping_callback, seq_stmt, ws_ping.
  rewrite decide_True by done. done.
Qed.

Lemma map_rearm_absent c (t : N) (l : list (WS * N)) :
  c ∉ map fst l ->
  map (fun p : WS * N => if decide (p.1 = c) then (c, t) else p) l = l.
Proof.
  induction l as [| [c' d] l IH]; cbn; [done |].
  intros Hn. apply not_elem_of_cons in Hn as [Hne Hn].
  rewrite decide_False by (cbn; congruence). by rewrite IH.
Qed.

Lemma filter_ne_absent c (l : list (WS * N)) :
  c ∉ map fst (filter (fun p : WS * N => p.1 <> c) l).
Proof.
  intros (p & -> & Hp)%list_elem_of_fmap.
  apply list_elem_of_filter in Hp as [Hne _]. done.
Qed.

Lemma fire_not_open c st :
  sockets st !! c <> Some OPEN ->
  trace (fire c st) = trace st ++ [ClearInterval c] /\
  clock (fire c st) = clock st /\
  timers (fire c st) = filter (fun p : WS * N => p.1 <> c) (timers st).
Proof.
  intros H. unfold fire, rearm, ping_callback, seq_stmt, clearInterval.
  rewrite decide_False by done. cbn.
  repeat split. apply map_rearm_absent, filter_ne_absent.
Qed.

Lemma fire_clock c st : clock (fire c st) = clock st.
Proof.
  destruct (decide (sockets st !! c = Some OPEN)) as [H | H].
  - by destruct (fire_open c st H) as (_ & ? & _).
  - by destruct (fire_not_open c st H) as (_ & ? & _).
Qed.

Lemma fire_all_clock l : forall st, clock (fire_all l st) = clock st.
Proof.
  induction l as [| c l IH]; intros st; cbn; [done |].
  unfold fire_all in IH. by rewrite IH, fire_clock.
Qed.

Lemma tick_clock st : clock (tick st) = (clock st + 1)%N.
Proof.
  unfold tick, seq_stmt. cbn.
  apply (fire_all_clock _ (set_clock (clock st + 1)%N st)).
Qed.

Lemma elapse_clock dt st : clock (elapse dt st) = (clock st + dt)%N.
Proof.
  unfold elapse. induction dt as [| dt IH] using N.peano_ind.
  - cbn. lia.
  - rewrite N.iter_succ, tick_clock, IH. lia.
Qed.

(** No frame is sent to a peer by time passing. *)
Lemma fire_sends c st : sends (trace (fire c st)) = sends (trace st).
Proof.
  unfold sends.
  destruct (decide (sockets st !! c = Some OPEN)) as [H | H].
  - destruct (fire_open c st H) as (-> & _). rewrite omap_app. cbn.
    by rewrite app_nil_r.
  - destruct (fire_not_open c st H) as (-> & _). rewrite omap_app. cbn.
    by rewrite app_nil_r.
Qed.

Lemma fire_all_sends l : forall st,
  sends (trace (fire_all l st)) = sends (trace st).
Proof.
  induction l as [| c l IH]; intros st; cbn; [done |].
  unfold fire_all in IH. by rewrite IH, fire_sends.
Qed.

Lemma tick_sends st : sends (trace (tick st)) = sends (trace st).
Proof.
  unfold tick, seq_stmt.
  apply (fire_all_sends _ (set_clock (clock st + 1)%N st)).
Qed.

Lemma elapse_sends dt st : sends (trace (elapse dt st)) = sends (trace st).
Proof.
  unfold elapse. induction dt as [| dt IH] using N.peano_ind; [done |].
  by rewrite N.iter_succ, tick_sends.
Qed.

(** ** The session invariant *)

Lemma live_spec st c : live st c = true <-> connected (sockets st) c.
Proof.
  unfold live, connected. destruct (sockets st !! c) as [rs |]; split.
  - intros H. exists rs. split; [done |]. by intros ->.
  - intros (? & [= <-] & H). by destruct rs.
  - done.
  - by intros (? & ? & _).
Qed.

Lemma wf_init : wf init.
Proof.
  unfold wf, wf_session, init. cbn. split_and!.
  - constructor.
  - intros c. unfold connected. rewrite lookup_empty. split.
    + by intros ?%elem_of_nil.
    + by intros (? & ? & _).
  - intros c [? H]. by rewrite lookup_empty in H.
  - done.
Qed.

Lemma wf_same_session st st' : same_session st st' -> wf st -> wf st'.
Proof.
  intros [] H. unfold wf in *. congruence.
Qed.

(** [ws.close()] keeps a connected socket connected and leaves a closed
    one closed. *)
Lemma ws_close_connected c st c' :
  connected (sockets (ws_close c st)) c' <-> connected (sockets st) c'.
Proof.
  unfold connected. rewrite ws_close_sockets.
  case_decide as E; [subst c' |]; [| done].
  destruct (sockets st !! c) as [[] |]; split; intros (rs & [= <-] & H);
    first [done | by eexists].
Qed.

Lemma ws_close_is_Some c st c' :
  is_Some (sockets (ws_close c st) !! c') <-> is_Some (sockets st !! c').
Proof.
  rewrite ws_close_sockets. case_decide as E; [subst c' |]; [| done].
  destruct (sockets st !! c) as [[] |]; split; intros [? ?]; by eauto.
Qed.

Lemma wf_ws_close c st : wf st -> wf (ws_close c st).
Proof.
  unfold wf, wf_session.
  destruct (ws_close_fields c st) as (-> & -> & _ & -> & _).
  intros (Hnd & Hlive & Hnext & Hcur). split_and!; [done | | | done].
  - intros c'. by rewrite ws_close_connected.
  - intros c'. rewrite ws_close_is_Some. apply Hnext.
Qed.

Lemma wf_close_all l : forall st, wf st -> wf (close_all l st).
Proof.
  induction l as [| c l IH]; intros st H; cbn; [done |].
  apply (IH (ws_close c st)), wf_ws_close, H.
Qed.

Lemma wf_emit e st : wf (emit e st) <-> wf st.
Proof. done. Qed.

Lemma wf_shutdown code st : wf st -> wf (shutdown code st).
Proof.
  intros H. unfold shutdown, seq_stmt, log, process_exit.
  set (st1 := close_all _ _).
  assert (wf st1) as H1.
  { subst st1. apply (wf_close_all _ (emit _ st)), H. }
  clearbody st1. destruct (agent_killed _); exact H1.
Qed.

Lemma ws_close_set_currentClient v c st :
  set_currentClient v (ws_close c st) = ws_close c (set_currentClient v st).
Proof.
  unfold ws_close, seq_stmt. cbn. destruct (sockets st !! c) as [[] |]; done.
Qed.

(** Installing a connected peer as the current client. *)
Lemma wf_install ws st2 :
  wf (set_currentClient None st2) ->
  ws ∈ wss_clients st2 ->
  wf (setInterval ws
        (set_currentClient (Some ws) (emit (SetCurrentClient (Some ws)) st2))).
Proof.
  intros (? & ? & ? & _) Hin. unfold wf, wf_session. cbn in *.
  split_and!; try done. by intros c [= <-].
Qed.

Lemma wf_accept st : wf st -> wf (accept st).
Proof.
  intros (Hnd & Hlive & Hnext & Hcur).
  assert (next_ws st ∉ wss_clients st) as Hfresh.
  { intros Hin. apply Hlive in Hin as (rs & Hrs & _).
    assert (is_Some (sockets st !! next_ws st)) as Hs by eauto.
    apply Hnext in Hs. lia. }
  unfold accept, on_connection, seq_stmt, log. cbn.
  rewrite decide_False by done.
  set (st1 := set_next_ws _ _).
  assert (wf (set_currentClient None st1)) as H1.
  { unfold wf, wf_session. subst st1. cbn. split_and!.
    - apply NoDup_app. split_and!; [done | | apply NoDup_singleton].
      intros c Hc ->%list_elem_of_singleton. done.
    - intros c. rewrite elem_of_app, list_elem_of_singleton, Hlive.
      unfold connected.
      destruct (decide (c = next_ws st)) as [-> | Hne].
      + rewrite lookup_insert_eq. split; [| by right].
        intros _. by exists OPEN.
      + rewrite lookup_insert_ne by done. split; [| by left].
        by intros [? | ?].
    - intros c. destruct (decide (c = next_ws st)) as [-> | Hne]; [lia |].
      rewrite lookup_insert_ne by done. intros Hs%Hnext. lia.
    - done. }
  assert (next_ws st ∈ wss_clients st1) as Hin1.
  { subst st1. cbn. apply elem_of_app. right. by left. }
  clearbody st1.
  apply (wf_install (next_ws st)).
  - destruct (currentClient st) as [old |]; [| exact H1].
    rewrite ws_close_set_currentClient. apply wf_ws_close. exact H1.
  - destruct (currentClient st) as [old |]; [| exact Hin1].
    by destruct (ws_close_fields old
                   (emit (Log (Text "Closing existing client connection"))
                      (emit (Log (Text "Client connected")) st1)))
      as (_ & -> & _).
Qed.

Lemma wf_closed ws st : live st ws = true -> wf st -> wf (closed ws st).
Proof.
  intros Hws%live_spec (Hnd & Hlive & Hnext & Hcur).
  assert (forall c, c ∈ filter (fun c => c <> ws) (wss_clients st) <->
                    connected (<[ws := CLOSED]> (sockets st)) c) as Hl.
  { intros c. rewrite list_elem_of_filter, Hlive. unfold connected.
    destruct (decide (c = ws)) as [-> | Hne].
    - rewrite lookup_insert_eq. split; [by intros [? _] |].
      by intros (? & [= <-] & ?).
    - rewrite lookup_insert_ne by done. split; [by intros [_ ?] | done]. }
  assert (forall c, is_Some (<[ws := CLOSED]> (sockets st) !! c) ->
                    (c < next_ws st)%nat) as Hs.
  { intros c. destruct (decide (c = ws)) as [-> | Hne].
    - intros _. apply Hnext. destruct Hws as (rs & -> & _). eauto.
    - rewrite lookup_insert_ne by done. apply Hnext. }
  unfold closed, on_close, seq_stmt, log. cbn.
  case_decide as Hc; unfold wf, wf_session; cbn;
    (split_and!; [by apply NoDup_filter | exact Hl | exact Hs |]).
  - done.
  - intros c Hcc. apply list_elem_of_filter. split; [congruence | by apply Hcur].
Qed.

Lemma wf_peer_closing ws st : wf st -> wf (peer_closing ws st).
Proof.
  intros (Hnd & Hlive & Hnext & Hcur). unfold peer_closing.
  case_decide as Ho; [| done]. unfold wf, wf_session. cbn.
  split_and!; [done | | | done].
  - intros c. rewrite Hlive. unfold connected.
    destruct (decide (c = ws)) as [-> | Hne].
    + rewrite lookup_insert_eq, Ho. split; intros _; by eexists.
    + by rewrite lookup_insert_ne.
  - intros c. destruct (decide (c = ws)) as [-> | Hne].
    + intros _. apply Hnext. rewrite Ho. eauto.
    + rewrite lookup_insert_ne by done. apply Hnext.
Qed.

Lemma on_message_forwards ws data st :
  stdin_writable st = true ->
  on_message ws data st =
    set_agent_stdin (Some (mkStdin true (stdin_written st ++ [data])))
      (emit (StdinWrite data) (emit (Log (ClientToAgent data)) st)).
Proof.
  unfold stdin_writable, stdin_written, on_message, seq_stmt, log, stdin_write.
  cbn. destruct (agent_stdin st) as [[w wr] |] eqn:E; cbn; [| done].
  intros ->. unfold seq_stmt. cbn. by rewrite E.
Qed.

Lemma on_message_drops ws data st :
  stdin_writable st = false ->
  on_message ws data st =
    emit (Log (Text "Warning: Agent stdin is not writable"))
      (emit (Log (ClientToAgent data)) st).
Proof.
  unfold stdin_writable, on_message, seq_stmt, log. cbn.
  destruct (agent_stdin st) as [[w wr] |]; cbn; [| done]. by intros ->.
Qed.

Lemma wf_on_message ws data st : wf st -> wf (on_message ws data st).
Proof.
  destruct (stdin_writable st) eqn:E.
  - by rewrite on_message_forwards.
  - by rewrite on_message_drops.
Qed.

Lemma wf_on_stdout_data data st : wf st -> wf (on_stdout_data data st).
Proof.
  unfold on_stdout_data, seq_stmt, log, ws_send. cbn.
  destruct (currentClient st) as [c |] eqn:E; [| by unfold wf; cbn; rewrite E].
  case_decide; unfold wf; cbn; by rewrite E.
Qed.

Lemma wf_stdin_end st : wf st -> wf (stdin_end st).
Proof.
  unfold stdin_end. by destruct (agent_stdin st).
Qed.

(** Every event keeps the session invariant. *)
Lemma wf_dispatch st ev : wf st -> wf (dispatch st ev).
Proof.
  intros H. unfold dispatch. destruct (exited st); [done |].
  destruct ev; try done.
  - by apply wf_accept.
  - destruct (live st ws); [by apply wf_on_message | done].
  - by apply wf_peer_closing.
  - destruct (live st ws) eqn:E; [by apply wf_closed | done].
  - by destruct (live st ws).
  - by destruct (live st ws).
  - by apply wf_on_stdout_data.
  - by apply wf_stdin_end.
  - by apply (wf_shutdown _ (emit _ st)).
  - by apply (wf_shutdown _ (emit _ st)).
  - by apply (wf_shutdown _ (emit _ st)).
  - eapply wf_same_session; [apply elapse_same_session | done].
Qed.

Lemma wf_run evs : forall st, wf st -> wf (run st evs).
Proof.
  induction evs as [| ev evs IH]; intros st H; cbn; [done |].
  apply IH, wf_dispatch, H.
Qed.

Lemma run_cons st ev evs : run st (ev :: evs) = run (dispatch st ev) evs.
Proof. reflexivity. Qed.

Lemma run_app st evs1 evs2 : run st (evs1 ++ evs2) = run (run st evs1) evs2.
Proof. apply foldl_app. Qed.

(** After [process.exit] nothing changes. *)
Lemma run_exited evs : forall st, exited st <> None -> run st evs = st.
Proof.
  induction evs as [| ev evs IH]; intros st H; cbn; [done |].
  unfold dispatch at 2. destruct (exited st) eqn:E; [| done].
  apply IH. by rewrite E.
Qed.

(** ** What each event sends to peers *)

Lemma sends_app tr1 tr2 : sends (tr1 ++ tr2) = sends tr1 ++ sends tr2.
Proof. apply omap_app. Qed.

Lemma sends_closes l : sends (map WsClose l) = [].
Proof. induction l as [| c l IH]; cbn; done. Qed.

Lemma on_stdout_data_trace data st :
  trace (on_stdout_data data st) =
    trace st ++
      match currentClient st with
      | Some c =>
          if decide (sockets st !! c = Some OPEN)
          then [Log (AgentToClient data); WsSend c data]
          else [Log (AgentToClient data);
                Log (Text "No active client to forward message to")]
      | None => [Log (AgentToClient data);
                 Log (Text "No active client to forward message to")]
      end.
Proof.
  unfold on_stdout_data, seq_stmt, log, ws_send. cbn.
  destruct (currentClient st) as [c |]; [case_decide |]; cbn;
    by rewrite <- app_assoc.
Qed.

Lemma accept_trace st :
  trace (accept st) =
    trace st ++
      match currentClient st with
      | Some old =>
          [Log (Text "Client connected");
           Log (Text "Closing existing client connection");
           WsClose old;
           SetCurrentClient (Some (next_ws st));
           SetInterval (next_ws st)]
      | None =>
          [Log (Text "Client connected");
           SetCurrentClient (Some (next_ws st));
           SetInterval (next_ws st)]
      end.
Proof.
  unfold accept, on_connection, seq_stmt, log, setInterval. cbn.
  destruct (currentClient st) as [old |]; cbn.
  - rewrite ws_close_trace. cbn. by rewrite <- !app_assoc.
  - by rewrite <- !app_assoc.
Qed.

Lemma closed_trace ws st :
  trace (closed ws st) =
    trace st ++
      if decide (currentClient st = Some ws)
      then [Log (Text "Client disconnected"); SetCurrentClient None]
      else [Log (Text "Client disconnected")].
Proof.
  unfold closed, on_close, seq_stmt, log. cbn.
  case_decide; cbn; [by rewrite <- app_assoc | done].
Qed.

Lemma on_message_trace ws data st :
  trace (on_message ws data st) =
    trace st ++
      if stdin_writable st
      then [Log (ClientToAgent data); StdinWrite data]
      else [Log (ClientToAgent data);
            Log (Text "Warning: Agent stdin is not writable")].
Proof.
  destruct (stdin_writable st) eqn:E.
  - rewrite on_message_forwards by done. cbn. by rewrite <- app_assoc.
  - rewrite on_message_drops by done. cbn. by rewrite <- app_assoc.
Qed.

Lemma shutdown_sends code st :
  sends (trace (shutdown code st)) = sends (trace st).
Proof.
  rewrite shutdown_trace, !sends_app, sends_closes.
  destruct (agent_killed st); cbn; by rewrite app_nil_r.
Qed.

Lemma dispatch_sends st ev :
  sends (trace (dispatch st ev)) = sends (trace st) ++ outbound st ev.
Proof.
  unfold dispatch, outbound. destruct (exited st); [by rewrite app_nil_r |].
  destruct ev.
  - rewrite accept_trace, sends_app.
    destruct (currentClient st); cbn; reflexivity.
  - destruct (live st ws); [| by rewrite app_nil_r].
    rewrite on_message_trace, sends_app. by destruct (stdin_writable st).
  - unfold peer_closing. case_decide; by rewrite app_nil_r.
  - destruct (live st ws); [| by rewrite app_nil_r].
    rewrite closed_trace, sends_app. by case_decide.
  - destruct (live st ws); [| by rewrite app_nil_r]. cbn. by rewrite sends_app.
  - destruct (live st ws); [| by rewrite app_nil_r]. cbn. by rewrite sends_app.
  - cbn. by rewrite sends_app.
  - rewrite on_stdout_data_trace, sends_app.
    destruct (currentClient st); [case_decide |]; reflexivity.
  - unfold stdin_end. destruct (agent_stdin st); by rewrite app_nil_r.
  - unfold on_agent_exit, seq_stmt. rewrite shutdown_sends. cbn. by rewrite sends_app.
  - unfold on_agent_error, seq_stmt. rewrite shutdown_sends. cbn. by rewrite sends_app.
  - unfold on_signal, seq_stmt. rewrite shutdown_sends. cbn. by rewrite sends_app.
  - by rewrite elapse_sends, app_nil_r.
Qed.

(** ** The armed intervals *)

(** After the due intervals have fired, an armed interval is either one
    that was not due, untouched, or one of an open socket, due again one
    period from now. *)
Lemma fire_timers y st x d :
  (x, d) ∈ timers (fire y st) ->
  ((x, d) ∈ timers st /\ x <> y) \/
  (d = (clock st + PING_INTERVAL)%N /\ sockets st !! x = Some OPEN).
Proof.
  destruct (decide (sockets st !! y = Some OPEN)) as [Ho | Hn].
  - destruct (fire_open y st Ho) as (_ & _ & ->).
    intros ([x' d'] & E & Hin)%list_elem_of_fmap. cbn in E.
    case_decide as Hy; inversion E; subst.
    + by right.
    + left. done.
  - destruct (fire_not_open y st Hn) as (_ & _ & ->).
    intros [Hne Hin]%list_elem_of_filter. by left.
Qed.

Lemma fire_all_timers l : forall st x d,
  (x, d) ∈ timers (fire_all l st) ->
  ((x, d) ∈ timers st /\ x ∉ l) \/
  (d = (clock st + PING_INTERVAL)%N /\ sockets st !! x = Some OPEN).
Proof.
  induction l as [| y l IH]; intros st x d H; cbn in H.
  - left. split; [done | apply not_elem_of_nil].
  - apply IH in H. rewrite fire_clock in H.
    rewrite (ss_sockets _ _ (fire_same_session y st)) in H.
    destruct H as [[H Hl] | H]; [| by right].
    apply fire_timers in H as [[H Hy] | H]; [| by right].
    left. split; [done |]. by apply not_elem_of_cons.
Qed.

Lemma tick_timers st x d :
  (x, d) ∈ timers (tick st) ->
  ((x, d) ∈ timers st /\ d <> (clock st + 1)%N) \/
  (d = (clock st + 1 + PING_INTERVAL)%N /\ sockets st !! x = Some OPEN).
Proof.
  unfold tick, seq_stmt. intros H.
  apply (fire_all_timers _ (set_clock (clock st + 1)%N st)) in H. cbn in H.
  destruct H as [[H Hl] | H]; [| by right].
  left. split; [done |]. intros ->. apply Hl.
  apply list_elem_of_fmap. exists (x, (clock st + 1)%N). split; [done |].
  by apply list_elem_of_filter.
Qed.

Lemma timers_ok_tick st : timers_ok st -> timers_ok (tick st).
Proof.
  intros H c d [[Hin Hne] | [-> _]]%tick_timers; rewrite tick_clock.
  - apply H in Hin. lia.
  - unfold PING_INTERVAL. lia.
Qed.

Lemma timers_ok_elapse dt st : timers_ok st -> timers_ok (elapse dt st).
Proof.
  intros H. unfold elapse. induction dt as [| dt IH] using N.peano_ind.
  - done.
  - rewrite N.iter_succ. by apply timers_ok_tick.
Qed.

Lemma shutdown_timers code st :
  timers (shutdown code st) = timers st /\ clock (shutdown code st) = clock st.
Proof.
  unfold shutdown, seq_stmt, log, process_exit.
  set (st1 := close_all _ _).
  assert (timers st1 = timers st /\ clock st1 = clock st) as H.
  { subst st1.
    destruct (close_all_fields (wss_clients st)
                (emit (Log (Text "Shutting down WebSocket proxy server")) st))
      as (_ & _ & _ & _ & Ht & Hc & _). split; [exact Ht | exact Hc]. }
  clearbody st1. by destruct (agent_killed _).
Qed.

Lemma accept_timers st :
  timers (accept st) = timers st ++ [(next_ws st, (clock st + PING_INTERVAL)%N)] /\
  clock (accept st) = clock st.
Proof.
  unfold accept, on_connection, seq_stmt, log, setInterval. cbn.
  destruct (currentClient st) as [old |]; [| done].
  by destruct (ws_close_fields old
     (emit (Log (Text "Closing existing client connection"))
        (emit (Log (Text "Client connected"))
           (set_next_ws (S (next_ws st))
              (set_wss_clients
                 (if decide (next_ws st ∈ wss_clients st)
                  then wss_clients st else wss_clients st ++ [next_ws st])
                 (set_sockets (<[next_ws st:=OPEN]> (sockets st)) st))))))
    as (_ & _ & _ & _ & -> & -> & _).
Qed.

(** The events other than a connection and time passing leave the
    intervals and the clock alone. *)
Lemma dispatch_timers st ev :
  ev <> EvConnection -> (forall dt, ev <> EvElapse dt) ->
  timers (dispatch st ev) = timers st /\ clock (dispatch st ev) = clock st.
Proof.
  intros Hc He. unfold dispatch. destruct (exited st); [done |].
  destruct ev; try done.
  - destruct (live st ws); [| done].
    destruct (stdin_writable st) eqn:E.
    + by rewrite on_message_forwards.
    + by rewrite on_message_drops.
  - unfold peer_closing. by case_decide.
  - destruct (live st ws); [| done].
    unfold closed, on_close, seq_stmt, log. cbn. by case_decide.
  - by destruct (live st ws).
  - by destruct (live st ws).
  - unfold on_stdout_data, seq_stmt, log, ws_send. cbn.
    destruct (currentClient st); [case_decide |]; done.
  - unfold stdin_end. by destruct (agent_stdin st).
  - apply (shutdown_timers _ (emit _ st)).
  - apply (shutdown_timers _ (emit _ st)).
  - apply (shutdown_timers _ (emit _ st)).
  - by specialize (He dt).
Qed.

Lemma dispatch_connection st :
  exited st = None -> dispatch st EvConnection = accept st.
Proof. unfold dispatch. by intros ->. Qed.

Lemma dispatch_elapse st dt :
  exited st = None -> dispatch st (EvElapse dt) = elapse dt st.
Proof. unfold dispatch. by intros ->. Qed.

Lemma dispatch_exited st ev : exited st <> None -> dispatch st ev = st.
Proof. unfold dispatch. by destruct (exited st). Qed.

Lemma timers_ok_dispatch st ev : timers_ok st -> timers_ok (dispatch st ev).
Proof.
  intros H. destruct (exited st) as [code |] eqn:Ex.
  { rewrite dispatch_exited; [done | by rewrite Ex]. }
  destruct (decide (ev = EvConnection)) as [-> | Hc].
  { rewrite dispatch_connection by done. unfold timers_ok.
    destruct (accept_timers st) as [-> ->].
    intros c d [Hin | [= -> ->]%list_elem_of_singleton]%elem_of_app.
    - exact (H c d Hin).
    - unfold PING_INTERVAL. lia. }
  destruct ev; try (unfold timers_ok;
    destruct (dispatch_timers st _ Hc ltac:(done)) as [-> ->]; exact H).
  rewrite dispatch_elapse by done. by apply timers_ok_elapse.
Qed.

Lemma timers_ok_run evs : forall st, timers_ok st -> timers_ok (run st evs).
Proof.
  induction evs as [| ev evs IH]; intros st H; cbn; [done |].
  apply IH, timers_ok_dispatch, H.
Qed.

Lemma timers_ok_init : timers_ok init.
Proof. intros c d H. by apply elem_of_nil in H. Qed.

(** ** A closed socket *)

Lemma pings_to_app c tr1 tr2 :
  pings_to c (tr1 ++ tr2) = pings_to c tr1 ++ pings_to c tr2.
Proof. apply filter_app. Qed.

Lemma pings_to_quiet c tr l :
  forallb (fun e => negb (bool_decide (e = WsPing c))) l = true ->
  pings_to c (tr ++ l) = pings_to c tr.
Proof.
  intros H. rewrite pings_to_app.
  assert (pings_to c l = []) as ->; [| by rewrite app_nil_r].
  induction l as [| e l IH]; [done |]. cbn in H.
  apply andb_prop in H as [He Hl]. unfold pings_to in *.
  rewrite filter_cons_False; [by apply IH |].
  intros ->. by rewrite bool_decide_eq_true_2 in He.
Qed.

Lemma pings_to_closes c l : pings_to c (map WsClose l) = [].
Proof.
  induction l as [| x l IH]; [done |]. unfold pings_to in *. simpl map.
  rewrite filter_cons_False; done.
Qed.

(** A closed socket stays closed. *)
Lemma accept_sockets st c :
  c <> next_ws st ->
  sockets (accept st) !! c =
    match currentClient st with
    | Some old =>
        if decide (c = old)
        then match sockets st !! c with
             | Some CLOSED => Some CLOSED
             | Some _ => Some CLOSING
             | None => None
             end
        else sockets st !! c
    | None => sockets st !! c
    end.
Proof.
  intros Hne. unfold accept, on_connection, seq_stmt, log, setInterval. cbn.
  destruct (currentClient st) as [old |]; cbn.
  - rewrite ws_close_sockets. cbn.
    case_decide as E; [subst old |]; by rewrite !lookup_insert_ne.
  - by rewrite lookup_insert_ne.
Qed.

Lemma shutdown_sockets code st c :
  sockets (shutdown code st) !! c =
    if decide (c ∈ wss_clients st)
    then match sockets st !! c with
         | Some CLOSED => Some CLOSED
         | Some _ => Some CLOSING
         | None => None
         end
    else sockets st !! c.
Proof.
  unfold shutdown, seq_stmt, log, process_exit.
  set (st1 := close_all _ _).
  assert (sockets st1 !! c =
            if decide (c ∈ wss_clients st)
            then match sockets st !! c with
                 | Some CLOSED => Some CLOSED
                 | Some _ => Some CLOSING
                 | None => None
                 end
            else sockets st !! c) as H.
  { subst st1.
    apply (close_all_sockets (wss_clients st)
             (emit (Log (Text "Shutting down WebSocket proxy server")) st)). }
  clearbody st1. by destruct (agent_killed _).
Qed.

Lemma dispatch_closed_stays st ev c :
  wf st ->
  sockets st !! c = Some CLOSED ->
  sockets (dispatch st ev) !! c = Some CLOSED.
Proof.
  intros (_ & _ & Hnext & _) Hc. unfold dispatch.
  destruct (exited st); [done |].
  assert (forall code e,
            sockets (shutdown code (emit e st)) !! c = Some CLOSED) as Hsd.
  { intros code e. rewrite shutdown_sockets. cbn. rewrite Hc. by case_decide. }
  destruct ev; try done.
  - rewrite accept_sockets.
    + destruct (currentClient st); [case_decide |]; by rewrite ?Hc.
    + assert (c < next_ws st)%nat by (apply Hnext; rewrite Hc; eauto). lia.
  - destruct (live st ws); [| done].
    destruct (stdin_writable st) eqn:E.
    + by rewrite on_message_forwards.
    + by rewrite on_message_drops.
  - unfold peer_closing. case_decide as Ho; [| done]. cbn.
    rewrite lookup_insert_ne; [done | congruence].
  - destruct (live st ws); [| done].
    unfold closed, on_close, seq_stmt, log. cbn.
    destruct (decide (c = ws)) as [-> | Hne].
    + case_decide; cbn; by rewrite lookup_insert_eq.
    + case_decide; cbn; by rewrite lookup_insert_ne.
  - by destruct (live st ws).
  - by destruct (live st ws).
  - unfold on_stdout_data, seq_stmt, log, ws_send. cbn.
    destruct (currentClient st); [case_decide |]; done.
  - unfold stdin_end. by destruct (agent_stdin st).
  - exact (Hsd _ _).
  - exact (Hsd _ _).
  - exact (Hsd _ _).
  - by rewrite (ss_sockets _ _ (elapse_same_session dt st)).
Qed.

(** No probe goes to a socket that is not open. *)
Lemma fire_pings_not_open y st c :
  sockets st !! c <> Some OPEN ->
  pings_to c (trace (fire y st)) = pings_to c (trace st).
Proof.
  intros Hc. destruct (decide (sockets st !! y = Some OPEN)) as [Ho | Hn].
  - destruct (fire_open y st Ho) as (-> & _). rewrite pings_to_app.
    unfold pings_to at 2. rewrite filter_cons_False.
    + by rewrite app_nil_r.
    + intros [= ->]. done.
  - destruct (fire_not_open y st Hn) as (-> & _). rewrite pings_to_app.
    by rewrite app_nil_r.
Qed.

Lemma fire_all_pings_not_open l c : forall st,
  sockets st !! c <> Some OPEN ->
  pings_to c (trace (fire_all l st)) = pings_to c (trace st).
Proof.
  induction l as [| y l IH]; intros st Hc; cbn; [done |].
  unfold fire_all in IH. rewrite IH.
  - by apply fire_pings_not_open.
  - by rewrite (ss_sockets _ _ (fire_same_session y st)).
Qed.

Lemma tick_pings_not_open st c :
  sockets st !! c <> Some OPEN ->
  pings_to c (trace (tick st)) = pings_to c (trace st).
Proof.
  intros Hc. unfold tick, seq_stmt.
  by apply (fire_all_pings_not_open _ c (set_clock (clock st + 1)%N st)).
Qed.

Lemma elapse_pings_not_open dt st c :
  sockets st !! c <> Some OPEN ->
  pings_to c (trace (elapse dt st)) = pings_to c (trace st).
Proof.
  intros Hc. induction dt as [| dt IH] using N.peano_ind.
  - done.
  - pose proof (ss_sockets _ _ (elapse_same_session dt st)) as Hs.
    unfold elapse in *. rewrite N.iter_succ, tick_pings_not_open; [done |].
    by rewrite Hs.
Qed.

Lemma shutdown_pings code st c :
  pings_to c (trace (shutdown code st)) = pings_to c (trace st).
Proof.
  rewrite shutdown_trace, !pings_to_app, pings_to_closes.
  destruct (agent_killed st); cbn; by rewrite app_nil_r.
Qed.

Lemma dispatch_pings_not_open st ev c :
  sockets st !! c <> Some OPEN ->
  pings_to c (trace (dispatch st ev)) = pings_to c (trace st).
Proof.
  intros Hc. unfold dispatch. destruct (exited st); [done |].
  destruct ev.
  - rewrite accept_trace.
    destruct (currentClient st); by apply pings_to_quiet.
  - destruct (live st ws); [| done].
    rewrite on_message_trace.
    destruct (stdin_writable st); by apply pings_to_quiet.
  - unfold peer_closing. by case_decide.
  - destruct (live st ws); [| done].
    rewrite closed_trace. case_decide; by apply pings_to_quiet.
  - destruct (live st ws); [| done]. by apply pings_to_quiet.
  - destruct (live st ws); [| done]. by apply pings_to_quiet.
  - by apply pings_to_quiet.
  - rewrite on_stdout_data_trace.
    destruct (currentClient st); [case_decide |]; by apply pings_to_quiet.
  - unfold stdin_end. by destruct (agent_stdin st).
  - unfold on_agent_exit, seq_stmt. rewrite shutdown_pings.
    by apply pings_to_quiet.
  - unfold on_agent_error, seq_stmt. rewrite shutdown_pings.
    by apply pings_to_quiet.
  - unfold on_signal, seq_stmt. rewrite shutdown_pings.
    by apply pings_to_quiet.
  - by apply elapse_pings_not_open.
Qed.

Lemma closed_since_tick st0 c st :
  closed_since st0 c st -> closed_since st0 c (tick st).
Proof.
  intros (Hc & Hp & Ht). split_and!.
  - by rewrite (ss_sockets _ _ (tick_same_session st)).
  - rewrite tick_pings_not_open; [done | by rewrite Hc].
  - intros d [[Hin Hne] | [_ Ho]]%tick_timers; [| congruence].
    apply Ht in Hin as [? ?]. rewrite tick_clock. split; [done | lia].
Qed.

Lemma closed_since_elapse dt st0 c st :
  closed_since st0 c st -> closed_since st0 c (elapse dt st).
Proof.
  intros H. unfold elapse. induction dt as [| dt IH] using N.peano_ind.
  - done.
  - rewrite N.iter_succ. by apply closed_since_tick.
Qed.

Lemma closed_since_dispatch st0 c st ev :
  wf st -> closed_since st0 c st -> closed_since st0 c (dispatch st ev).
Proof.
  intros Hwf (Hc & Hp & Ht).
  destruct (exited st) as [code |] eqn:Ex.
  { rewrite dispatch_exited; [done | by rewrite Ex]. }
  destruct (decide (ev = EvConnection)) as [-> | Hn].
  { split_and!.
    - by apply dispatch_closed_stays.
    - rewrite dispatch_pings_not_open; [done | by rewrite Hc].
    - rewrite dispatch_connection by done.
      destruct (accept_timers st) as [-> ->].
      intros d [Hin | [= E _]%list_elem_of_singleton]%elem_of_app.
      + by apply Ht.
      + destruct Hwf as (_ & _ & Hnext & _).
        assert (c < next_ws st)%nat by (apply Hnext; rewrite Hc; eauto). lia. }
  destruct ev; try (split_and!;
    [ by apply dispatch_closed_stays
    | rewrite dispatch_pings_not_open; [done | by rewrite Hc]
    | destruct (dispatch_timers st _ Hn ltac:(done)) as [-> ->]; exact Ht ]).
  rewrite dispatch_elapse by done. by apply closed_since_elapse.
Qed.

Lemma closed_since_run st0 c evs : forall st,
  wf st -> closed_since st0 c st -> closed_since st0 c (run st evs).
Proof.
  induction evs as [| ev evs IH]; intros st Hwf H; cbn; [done |].
  apply IH; [by apply wf_dispatch | by apply closed_since_dispatch].
Qed.

Lemma closed_since_refl st c :
  timers_ok st -> sockets st !! c = Some CLOSED -> closed_since st c st.
Proof.
  intros Hok H. split_and!; [done | done |].
  intros d Hin. split; [done |]. apply (Hok c d Hin).
Qed.

(** ** The fields an event leaves alone *)

Lemma shutdown_current code st :
  currentClient (shutdown code st) = currentClient st.
Proof.
  unfold shutdown, seq_stmt, log, process_exit.
  set (st1 := close_all _ _).
  assert (currentClient st1 = currentClient st) as H.
  { subst st1.
    destruct (close_all_fields (wss_clients st)
                (emit (Log (Text "Shutting down WebSocket proxy server")) st))
      as (Hcur & _). exact Hcur. }
  clearbody st1. by destruct (agent_killed _).
Qed.

(** Only a new connection installs a current client; the other events
    keep it or clear it. *)
Lemma dispatch_current st ev :
  ev <> EvConnection ->
  currentClient (dispatch st ev) = currentClient st \/
  currentClient (dispatch st ev) = None.
Proof.
  intros Hn. unfold dispatch. destruct (exited st); [by left |].
  destruct ev; try done; try by left.
  - destruct (live st ws); [| by left].
    destruct (stdin_writable st) eqn:E.
    + rewrite on_message_forwards by done. by left.
    + rewrite on_message_drops by done. by left.
  - unfold peer_closing. case_decide; by left.
  - destruct (live st ws); [| by left].
    unfold closed, on_close, seq_stmt, log. cbn. case_decide; [by right | by left].
  - destruct (live st ws); by left.
  - destruct (live st ws); by left.
  - left. unfold on_stdout_data, seq_stmt, log, ws_send. cbn.
    destruct (currentClient st) eqn:E; [case_decide |]; cbn; by rewrite E.
  - unfold stdin_end. destruct (agent_stdin st); by left.
  - left. apply (shutdown_current _ (emit _ st)).
  - left. apply (shutdown_current _ (emit _ st)).
  - left. apply (shutdown_current _ (emit _ st)).
  - left. apply (ss_current _ _ (elapse_same_session dt st)).
Qed.

(** Until the next connection, frames go to the current client only. *)
Lemma run_sends_sole w evs : forall st,
  EvConnection ∉ evs ->
  currentClient st = None \/ currentClient st = Some w ->
  exists l, sends (trace (run st evs)) = sends (trace st) ++ l /\
            Forall (fun p : WS * Buffer => p.1 = w) l.
Proof.
  induction evs as [| ev evs IH]; intros st Hn Hcur.
  - exists []. by rewrite app_nil_r.
  - rewrite run_cons. apply not_elem_of_cons in Hn as [Hne Hn].
    destruct (IH (dispatch st ev) Hn) as (l & -> & Hl).
    { destruct (dispatch_current st ev) as [-> | ->]; [done | done | by left]. }
    rewrite dispatch_sends. exists (outbound st ev ++ l).
    split; [by rewrite app_assoc |].
    apply Forall_app. split; [| done].
    unfold outbound. destruct (exited st); [done |].
    destruct ev; try done.
    destruct Hcur as [-> | ->]; [done |].
    case_decide; [| done]. by constructor.
Qed.

Lemma accept_current st : currentClient (accept st) = Some (next_ws st).
Proof.
  unfold accept, on_connection, seq_stmt, log, setInterval. reflexivity.
Qed.

Lemma accept_pipe st :
  agent_stdin (accept st) = agent_stdin st /\
  agent_killed (accept st) = agent_killed st /\
  exited (accept st) = exited st.
Proof.
  unfold accept, on_connection, seq_stmt, log, setInterval. cbn.
  destruct (currentClient st) as [old |]; [| done].
  by destruct (ws_close_fields old
     (emit (Log (Text "Closing existing client connection"))
        (emit (Log (Text "Client connected"))
           (set_next_ws (S (next_ws st))
              (set_wss_clients
                 (if decide (next_ws st ∈ wss_clients st)
                  then wss_clients st else wss_clients st ++ [next_ws st])
                 (set_sockets (<[next_ws st:=OPEN]> (sockets st)) st))))))
    as (_ & _ & _ & _ & _ & _ & -> & -> & ->).
Qed.

(** The socket just accepted is open, unless it is the very socket the
    listener closes as the previous client. *)
Lemma accept_sockets_new st :
  currentClient st <> Some (next_ws st) ->
  sockets (accept st) !! next_ws st = Some OPEN.
Proof.
  intros Hne. unfold accept, on_connection, seq_stmt, log, setInterval. cbn.
  destruct (currentClient st) as [old |]; cbn.
  - rewrite ws_close_sockets. rewrite decide_False by congruence.
    cbn. by rewrite lookup_insert_eq.
  - by rewrite lookup_insert_eq.
Qed.

Lemma accept_connected st c :
  connected (sockets st) c -> connected (sockets (accept st)) c.
Proof.
  intros Hc.
  assert (connected (<[next_ws st := OPEN]> (sockets st)) c) as H1.
  { unfold connected in *. destruct (decide (c = next_ws st)) as [-> | Hne].
    - rewrite lookup_insert_eq. by exists OPEN.
    - by rewrite lookup_insert_ne. }
  unfold accept, on_connection, seq_stmt, log, setInterval. cbn.
  destruct (currentClient st) as [old |]; cbn; [| done].
  by apply ws_close_connected.
Qed.

(** ** The claims *)

Lemma filter_current_absent (cur : option WS) (l : list WS) :
  (forall x, x ∈ l -> cur <> Some x) ->
  filter (fun x => cur = Some x) l = [].
Proof.
  induction l as [| y l IH]; [done |]. intros H.
  rewrite filter_cons_False by (apply H; by left).
  apply IH. intros x Hx. apply H. by right.
Qed.

Lemma filter_current_present (cur : option WS) (c : WS) (l : list WS) :
  cur = Some c -> NoDup l -> c ∈ l ->
  filter (fun x => cur = Some x) l = [c].
Proof.
  intros Hc. induction l as [| y l IH]; intros Hnd Hin.
  - by apply elem_of_nil in Hin.
  - apply NoDup_cons in Hnd as [Hy Hnd].
    destruct (decide (c = y)) as [<- | Hne].
    + rewrite filter_cons_True by done.
      rewrite filter_current_absent; [done |].
      intros x Hx E. rewrite Hc in E. injection E as <-. done.
    + rewrite filter_cons_False by congruence.
      apply IH; [done |]. apply elem_of_cons in Hin as [? | ?]; done.
Qed.

Lemma active_sessions_wf st :
  wf st ->
  active_sessions st =
    match currentClient st with Some c => [c] | None => [] end.
Proof.
  intros (Hnd & _ & _ & Hcur). unfold active_sessions.
  destruct (currentClient st) as [c |] eqn:E.
  - apply filter_current_present; [done | done | by apply Hcur].
  - by apply filter_current_absent.
Qed.

Lemma run_nil st : run st [] = st.
Proof. reflexivity. Qed.

Lemma accept_next st : next_ws (accept st) = S (next_ws st).
Proof.
  unfold accept, on_connection, seq_stmt, log, setInterval. cbn.
  destruct (currentClient st) as [old |]; [| done].
  by destruct (ws_close_fields old
     (emit (Log (Text "Closing existing client connection"))
        (emit (Log (Text "Client connected"))
           (set_next_ws (S (next_ws st))
              (set_wss_clients
                 (if decide (next_ws st ∈ wss_clients st)
                  then wss_clients st else wss_clients st ++ [next_ws st])
                 (set_sockets (<[next_ws st:=OPEN]> (sockets st)) st))))))
    as (_ & _ & _ & -> & _).
Qed.

Lemma accept_new_connected st : connected (sockets (accept st)) (next_ws st).
Proof.
  unfold accept, on_connection, seq_stmt, log, setInterval. cbn.
  destruct (currentClient st) as [old |]; cbn.
  - apply ws_close_connected. cbn. unfold connected.
    rewrite lookup_insert_eq. by exists OPEN.
  - unfold connected. rewrite lookup_insert_eq. by exists OPEN.
Qed.

(** The ["close"] event of a socket that is not the current client. *)
Lemma stale_close st a b :
  exited st = None -> connected (sockets st) a ->
  currentClient st = Some b -> a <> b ->
  sockets (dispatch st (EvClose a)) !! a = Some CLOSED /\
  currentClient (dispatch st (EvClose a)) = Some b.
Proof.
  intros Hex Hca Hcur Hne. unfold dispatch. rewrite Hex.
  rewrite (proj2 (live_spec st a) Hca).
  unfold closed, on_close, seq_stmt, log. cbn. rewrite Hcur.
  rewrite decide_False by congruence. cbn.
  split; [apply lookup_insert_eq | exact Hcur].
Qed.

(** C1. In every state the proxy reaches, whatever the events were
    (connections, disconnects, messages in either direction, time passing,
    shutdown), there is at most one Active session: the list of connected
    peers that [currentClient] refers to is empty when [currentClient] is
    null and holds exactly that one peer otherwise. *)
Theorem at_most_one_active_session (evs : list Event) :
  let st := run init evs in
  (length (active_sessions st) <= 1)%nat /\
  active_sessions st =
    match currentClient st with Some c => [c] | None => [] end.
Proof.
  intros st.
  assert (wf st) as Hwf by apply wf_run, wf_init.
  rewrite (active_sessions_wf st Hwf). split; [| done].
  destruct (currentClient st); cbn; lia.
Qed.

(** C2. The ["close"] listener of a socket clears [currentClient] exactly
    when [currentClient] is that socket, and otherwise leaves it as it is;
    the same holds of the whole ["close"] event.  In particular, when a
    peer is evicted by a newer one and its ["close"] event arrives
    afterwards, the newer peer stays the current client. *)
Theorem disconnect_clears_only_current (st : State) (ws : WS) :
  exited st = None ->
  currentClient (on_close ws st) =
    (if decide (currentClient st = Some ws) then None else currentClient st) /\
  currentClient (dispatch st (EvClose ws)) =
    (if decide (live st ws = true /\ currentClient st = Some ws)
     then None else currentClient st) /\
  (let a := next_ws st in
   let st' := run st [EvConnection; EvConnection; EvClose a] in
   sockets st' !! a = Some CLOSED /\ currentClient st' = Some (S a)).
Proof.
  intros Hex. split_and!.
  - unfold on_close, seq_stmt, log. cbn. by case_decide.
  - unfold dispatch. rewrite Hex.
    destruct (live st ws) eqn:Hl.
    + unfold closed, on_close, seq_stmt, log. cbn.
      destruct (decide (currentClient st = Some ws)) as [E | E].
      * by rewrite decide_True.
      * rewrite decide_False; [done | by intros [_ ?]].
    + rewrite decide_False; [done | by intros [? _]].
  - intros a st'. subst a st'. rewrite !run_cons, run_nil.
    rewrite (dispatch_connection st) by done.
    destruct (accept_pipe st) as (_ & _ & Hex1). rewrite Hex in Hex1.
    rewrite (dispatch_connection (accept st)) by done.
    destruct (accept_pipe (accept st)) as (_ & _ & Hex2). rewrite Hex1 in Hex2.
    apply stale_close; [done | | | lia].
    + apply accept_connected, accept_new_connected.
    + by rewrite accept_current, accept_next.
Qed.

Lemma disconnect_clears_only_current_witness :
  exited init = None /\
  (let st' := run init [EvConnection; EvConnection; EvClose 0%nat] in
   sockets st' !! 0%nat = Some CLOSED /\ currentClient st' = Some 1%nat).
Proof.
  split; [reflexivity |].
  pose proof (disconnect_clears_only_current init 0%nat eq_refl) as (_ & _ & H).
  exact H.
Defined.

(** C3. When a peer connects while another session is Active, the
    ["connection"] listener first calls [close] on the previous client and
    only then assigns [currentClient]; afterwards the previous socket is
    closing, the new socket is open and is the one Active session, the
    next chunk of agent output goes to it, and until a further connection
    no frame goes to any other peer. *)
Theorem new_connection_evicts (evs0 : list Event) (old : WS) :
  let st := run init evs0 in
  exited st = None ->
  currentClient st = Some old ->
  let ws := next_ws st in
  let st' := dispatch st EvConnection in
  trace st' =
    trace st ++ [Log (Text "Client connected");
                 Log (Text "Closing existing client connection");
                 WsClose old;
                 SetCurrentClient (Some ws);
                 SetInterval ws] /\
  sockets st' !! old = Some CLOSING /\
  sockets st' !! ws = Some OPEN /\
  currentClient st' = Some ws /\
  active_sessions st' = [ws] /\
  (forall data,
     sends (trace (dispatch st' (EvAgentStdout data))) =
       sends (trace st') ++ [(ws, data)]) /\
  (forall evs, EvConnection ∉ evs ->
     exists l, sends (trace (run st' evs)) = sends (trace st') ++ l /\
               Forall (fun p : WS * Buffer => p.1 = ws) l).
Proof.
  intros st Hex Hcur ws st'.
  assert (wf st) as Hwf by apply wf_run, wf_init.
  assert (st' = accept st) as Hst' by (by apply dispatch_connection).
  assert (connected (sockets st) old) as Hold.
  { destruct Hwf as (_ & Hlive & _ & Hc). by apply Hlive, Hc. }
  assert (old <> ws) as Hne.
  { destruct Hwf as (_ & _ & Hnext & _). destruct Hold as (rs & Hrs & _).
    assert (old < next_ws st)%nat by (apply Hnext; rewrite Hrs; eauto).
    subst ws. lia. }
  assert (sockets st' !! ws = Some OPEN) as Hopen.
  { rewrite Hst'. apply accept_sockets_new. rewrite Hcur.
    intros [= E]. by apply Hne. }
  assert (currentClient st' = Some ws) as Hcur'.
  { rewrite Hst'. apply accept_current. }
  assert (exited st' = None) as Hex'.
  { rewrite Hst'. destruct (accept_pipe st) as (_ & _ & ->). exact Hex. }
  split_and!.
  - rewrite Hst', accept_trace, Hcur. reflexivity.
  - rewrite Hst', accept_sockets by done. rewrite Hcur.
    rewrite decide_True by done.
    destruct Hold as (rs & -> & Hrs). by destruct rs.
  - exact Hopen.
  - exact Hcur'.
  - rewrite active_sessions_wf, Hcur'; [done |]. by apply wf_dispatch.
  - intros data. rewrite dispatch_sends. unfold outbound.
    rewrite Hex', Hcur'. by rewrite decide_True.
  - intros evs Hn. apply run_sends_sole; [done | by right].
Qed.

Lemma new_connection_evicts_witness :
  let st := run init [EvConnection] in
  exited st = None /\ currentClient st = Some 0%nat /\
  currentClient (dispatch st EvConnection) = Some 1%nat.
Proof.
  split; [reflexivity |]. split; [reflexivity |].
  pose proof (new_connection_evicts [EvConnection] 0%nat eq_refl eq_refl)
    as (_ & _ & _ & H & _).
  exact H.
Defined.

Lemma on_stdout_data_emits data st :
  on_stdout_data data st =
    emit (match currentClient st with
          | Some c =>
              if decide (sockets st !! c = Some OPEN)
              then WsSend c data
              else Log (Text "No active client to forward message to")
          | None => Log (Text "No active client to forward message to")
          end)
         (emit (Log (AgentToClient data)) st).
Proof.
  unfold on_stdout_data, seq_stmt, log, ws_send. cbn.
  destruct (currentClient st); [case_decide |]; reflexivity.
Qed.

Lemma dispatch_pipe st ws ev :
  exited st = None -> live st ws = true -> stdin_writable st = true ->
  keeps_pipe ws ev = true ->
  exited (dispatch st ev) = None /\
  live (dispatch st ev) ws = true /\
  stdin_writable (dispatch st ev) = true /\
  stdin_written (dispatch st ev) = stdin_written st ++ inbound ws [ev].
Proof.
  intros Hex Hl Hw Hk. unfold dispatch. rewrite Hex.
  destruct ev; try done; cbn [inbound omap list_omap]; rewrite ?app_nil_r.
  - destruct (accept_pipe st) as (Hs & _ & ->).
    unfold stdin_writable, stdin_written. rewrite Hs. split_and!; try done.
    by apply live_spec, accept_connected, live_spec.
  - cbn in Hk. apply bool_decide_eq_true in Hk as ->. rewrite Hl.
    rewrite decide_True by done. rewrite on_message_forwards by done.
    done.
  - unfold peer_closing. case_decide as Ho; [| done].
    split_and!; try done. unfold live in *. cbn.
    destruct (decide (ws = ws0)) as [-> | Hne].
    + by rewrite lookup_insert_eq.
    + by rewrite lookup_insert_ne.
  - cbn in Hk. apply negb_true_iff, bool_decide_eq_false in Hk.
    destruct (live st ws0); [| done].
    unfold closed, on_close, seq_stmt, log. cbn.
    assert (forall st', sockets st' = <[ws0:=CLOSED]> (sockets st) ->
                        live st' ws = true) as Hl'.
    { intros st' E. unfold live in *. rewrite E.
      rewrite lookup_insert_ne; [done | congruence]. }
    case_decide; (split_and!; [done | by apply Hl' | done | done]).
  - by destruct (live st ws0).
  - by destruct (live st ws0).
  - done.
  - by rewrite on_stdout_data_emits.
  - destruct (elapse_same_session dt st) as [_ Hs _ _ _ Hi _ He].
    unfold live, stdin_writable, stdin_written in *.
    rewrite Hs, Hi, He. done.
Qed.

Lemma inbound_cons ws ev evs :
  inbound ws (ev :: evs) = inbound ws [ev] ++ inbound ws evs.
Proof. apply (omap_app _ [ev] evs). Qed.

Lemma run_pipe ws evs : forall st,
  exited st = None -> live st ws = true -> stdin_writable st = true ->
  forallb (keeps_pipe ws) evs = true ->
  stdin_writable (run st evs) = true /\
  stdin_written (run st evs) = stdin_written st ++ inbound ws evs.
Proof.
  induction evs as [| ev evs IH]; intros st Hex Hl Hw Hk.
  - rewrite run_nil. cbn. by rewrite app_nil_r.
  - cbn in Hk. apply andb_prop in Hk as [Hk1 Hk2].
    destruct (dispatch_pipe st ws ev Hex Hl Hw Hk1) as (Hex' & Hl' & Hw' & Hwr).
    rewrite run_cons, inbound_cons.
    destruct (IH _ Hex' Hl' Hw' Hk2) as [-> ->].
    rewrite Hwr. by rewrite app_assoc.
Qed.

Lemma chunks_cons ev evs : chunks (ev :: evs) = chunks [ev] ++ chunks evs.
Proof. apply (omap_app _ [ev] evs). Qed.

Lemma outbound_chunk st ev : map snd (outbound st ev) `sublist_of` chunks [ev].
Proof.
  unfold outbound.
  destruct (exited st), ev, (currentClient st); cbn;
    try apply sublist_nil_l; try reflexivity.
  case_decide; cbn; [reflexivity | apply sublist_nil_l].
Qed.

(** Over a run, the payloads of the frames sent are a subsequence of the
    chunks the agent wrote. *)
Lemma run_sends_sublist evs : forall st,
  exists l, sends (trace (run st evs)) = sends (trace st) ++ l /\
            map snd l `sublist_of` chunks evs.
Proof.
  induction evs as [| ev evs IH]; intros st.
  - exists []. rewrite run_nil, app_nil_r. split; [done | reflexivity].
  - destruct (IH (dispatch st ev)) as (l & Hl & Hsub).
    exists (outbound st ev ++ l). rewrite run_cons, Hl, dispatch_sends.
    split; [by rewrite app_assoc |].
    rewrite map_app, chunks_cons.
    apply sublist_app; [apply outbound_chunk | exact Hsub].
Qed.

(** C5. The ["data"] listener of the agent's stdout sends the chunk,
    unchanged, to the current client when there is one and its socket is
    open, and otherwise logs and changes nothing else.  Over every event
    of the system, the frames sent are at most one, for a chunk of agent
    output and to the client current at that moment; no other event (in
    particular no connection or disconnect) sends a frame.  So over every
    run the payloads of the frames sent are a subsequence of the chunks
    the agent wrote: no chunk is sent twice, and none is held back for a
    later peer. *)
Theorem child_output_forwarding
    (st : State) (data : Buffer) (ev : Event) (evs : list Event) :
  on_stdout_data data st =
    emit (match currentClient st with
          | Some c =>
              if decide (sockets st !! c = Some OPEN)
              then WsSend c data
              else Log (Text "No active client to forward message to")
          | None => Log (Text "No active client to forward message to")
          end)
         (emit (Log (AgentToClient data)) st) /\
  sends (trace (dispatch st ev)) =
    sends (trace st) ++
      match exited st, ev, currentClient st with
      | None, EvAgentStdout d, Some c =>
          if decide (sockets st !! c = Some OPEN) then [(c, d)] else []
      | _, _, _ => []
      end /\
  (exists l, sends (trace (run st evs)) = sends (trace st) ++ l /\
             map snd l `sublist_of` chunks evs).
Proof.
  split_and!.
  - apply on_stdout_data_emits.
  - rewrite dispatch_sends. unfold outbound.
    destruct (exited st), ev, (currentClient st); reflexivity.
  - apply run_sends_sublist.
Qed.

Lemma shutdown_flags code st :
  wss_closing (shutdown code st) = true /\
  agent_killed (shutdown code st) = true.
Proof.
  unfold shutdown, seq_stmt, log, process_exit.
  set (st1 := close_all _ _). clearbody st1. cbn.
  by destruct (agent_killed st1) eqn:E; cbn.
Qed.

Lemma dispatch_agent_exit st code :
  exited st = None ->
  dispatch st (EvAgentExit code) =
    shutdown (code_or_0 code) (emit (ConsoleError (AgentExitedWith code)) st).
Proof. unfold dispatch. by intros ->. Qed.

Lemma dispatch_agent_error st :
  exited st = None ->
  dispatch st EvAgentError =
    shutdown 1 (emit (ConsoleError (Text "[WebSocket Proxy] Agent error:")) st).
Proof. unfold dispatch. by intros ->. Qed.

Lemma dispatch_signal st sig :
  exited st = None ->
  dispatch st (EvSignal sig) =
    shutdown 0 (emit (ConsoleLog (ReceivedSignal sig)) st).
Proof. unfold dispatch. by intros ->. Qed.

(** C6. While the proxy runs, the ["exit"] event of the agent with code
    [n] makes the proxy call [process.exit(n)], as its last action, and the
    ["error"] event of the agent makes it call [process.exit(1)]. *)
Theorem exit_code_propagation (st : State) (n : Z) :
  exited st = None ->
  exited (dispatch st (EvAgentExit (Some n))) = Some n /\
  last (trace (dispatch st (EvAgentExit (Some n)))) = Some (ProcessExit n) /\
  exited (dispatch st EvAgentError) = Some 1 /\
  last (trace (dispatch st EvAgentError)) = Some (ProcessExit 1).
Proof.
  intros Hex.
  rewrite dispatch_agent_exit, dispatch_agent_error by done.
  rewrite !shutdown_exited, !shutdown_trace, code_or_0_some.
  rewrite !app_assoc, !last_snoc. done.
Qed.

Lemma exit_code_propagation_witness :
  exited init = None /\
  exited (dispatch init (EvAgentExit (Some 3))) = Some 3 /\
  exited (dispatch init EvAgentError) = Some 1.
Proof.
  split; [reflexivity |].
  pose proof (exit_code_propagation init 3 eq_refl) as (H1 & _ & H2 & _).
  split; [exact H1 | exact H2].
Defined.

(** C7. In every state the running proxy reaches, either termination
    signal makes it log, call [close] on every connected peer's socket in
    turn (the sockets in [wss.clients], whether current or not), close the
    server, kill the agent unless [agent.killed] is already set, and call
    [process.exit(0)]; afterwards every socket that was connected is
    closing. *)
Theorem signal_shutdown (evs0 : list Event) (sig : Signal) :
  let st := run init evs0 in
  exited st = None ->
  let st' := dispatch st (EvSignal sig) in
  trace st' =
    trace st
      ++ [ConsoleLog (ReceivedSignal sig);
          Log (Text "Shutting down WebSocket proxy server")]
      ++ map WsClose (wss_clients st)
      ++ [WssClose]
      ++ (if agent_killed st then [] else [AgentKill])
      ++ [ProcessExit 0] /\
  (forall c, connected (sockets st) c ->
             c ∈ wss_clients st /\ sockets st' !! c = Some CLOSING) /\
  wss_closing st' = true /\
  agent_killed st' = true /\
  exited st' = Some 0.
Proof.
  intros st Hex st'. subst st'. rewrite dispatch_signal by done.
  assert (wf st) as Hwf by apply wf_run, wf_init.
  destruct (shutdown_flags 0 (emit (ConsoleLog (ReceivedSignal sig)) st))
    as [Hc Hk].
  split_and!; [| | exact Hc | exact Hk | apply shutdown_exited].
  - rewrite shutdown_trace. cbn. by rewrite <- !app_assoc.
  - intros c Hcon. destruct Hwf as (_ & Hlive & _).
    assert (c ∈ wss_clients st) as Hin by by apply Hlive.
    split; [done |]. rewrite shutdown_sockets. cbn.
    rewrite decide_True by done.
    destruct Hcon as (rs & -> & Hrs). by destruct rs.
Qed.

Lemma signal_shutdown_witness :
  let st := run init [EvConnection; EvConnection] in
  exited st = None /\
  exited (dispatch st (EvSignal SIGTERM)) = Some 0.
Proof.
  split; [reflexivity |].
  pose proof (signal_shutdown [EvConnection; EvConnection] SIGTERM eq_refl)
    as (_ & _ & _ & _ & H).
  exact H.
Defined.

(** C10. While the proxy runs, an ["exit"] event of the agent that carries
    no exit code (null, as when a signal ended the agent) makes the proxy
    run [shutdown(0)]: it calls [process.exit(0)]. *)
Theorem null_exit_code_is_zero (st : State) :
  exited st = None ->
  dispatch st (EvAgentExit None) =
    shutdown 0 (emit (ConsoleError (AgentExitedWith None)) st) /\
  exited (dispatch st (EvAgentExit None)) = Some 0 /\
  last (trace (dispatch st (EvAgentExit None))) = Some (ProcessExit 0).
Proof.
  intros Hex. rewrite dispatch_agent_exit by done. cbn [code_or_0].
  rewrite shutdown_exited, shutdown_trace.
  rewrite !app_assoc, last_snoc. done.
Qed.

Lemma null_exit_code_is_zero_witness :
  exited init = None /\
  exited (dispatch init (EvAgentExit None)) = Some 0.
Proof.
  split; [reflexivity |].
  pose proof (null_exit_code_is_zero init eq_refl) as (_ & H & _).
  exact H.
Defined.

(** The callback of the interval, run for a socket that is not open:
    the interval is cleared, and nothing is sent. *)
Lemma ping_callback_not_open ws st :
  sockets st !! ws <> Some OPEN ->
  trace (ping_callback ws st) = trace st ++ [ClearInterval ws] /\
  ~ armed (ping_callback ws st) ws.
Proof.
  intros H. unfold ping_callback, clearInterval, seq_stmt, armed.
  rewrite decide_False by done. cbn. split; [done |].
  apply filter_ne_absent.
Qed.

Lemma ping_callback_open ws st :
  sockets st !! ws = Some OPEN ->
  ping_callback ws st = emit (WsPing ws) st.
Proof.
  intros H. unfold ping_callback, ws_ping. by rewrite decide_True.
Qed.

(** Once a socket is closed, its interval is gone one period later, is
    never armed again, and no probe goes to the socket. *)
Lemma closed_socket_run st0 c evs :
  wf st0 -> timers_ok st0 -> sockets st0 !! c = Some CLOSED ->
  pings_to c (trace (run st0 evs)) = pings_to c (trace st0) /\
  ((clock st0 + PING_INTERVAL <= clock (run st0 evs))%N ->
   ~ armed (run st0 evs) c) /\
  (~ armed st0 c -> ~ armed (run st0 evs) c).
Proof.
  intros Hwf Hok Hc.
  destruct (closed_since_run st0 c evs st0 Hwf (closed_since_refl st0 c Hok Hc))
    as (_ & Hp & Ht).
  split_and!; [exact Hp | |].
  - intros Hclock ([c' d] & -> & Hin)%list_elem_of_fmap. cbn in Hin.
    apply Ht in Hin as [Hin0 Hlt]. apply Hok in Hin0. lia.
  - intros Hn ([c' d] & -> & Hin)%list_elem_of_fmap. cbn in Hin.
    apply Ht in Hin as [Hin0 _]. apply Hn.
    apply list_elem_of_fmap. by exists (c', d).
Qed.

Lemma dispatch_close_sockets st ws :
  exited st = None -> live st ws = true ->
  sockets (dispatch st (EvClose ws)) !! ws = Some CLOSED.
Proof.
  intros Hex Hl. unfold dispatch. rewrite Hex, Hl.
  unfold closed, on_close, seq_stmt, log. cbn.
  case_decide; cbn; by rewrite lookup_insert_eq.
Qed.

(** C8, as the claim states it, fails: after a peer has connected and
    its ["close"] event has run, the socket is closed, yet its interval is
    still armed and no [clearInterval] has been called. *)
Lemma close_event_leaves_interval_armed :
  let st := run init [EvConnection; EvClose 0%nat] in
  sockets st !! 0%nat = Some CLOSED /\
  armed st 0%nat /\
  ClearInterval 0%nat ∉ trace st.
Proof.
  cbv zeta. apply (bool_decide_unpack _). vm_compute. exact I.
Qed.

(** C9. Once the socket of a session is closed, no liveness probe is sent
    to it any more, whatever happens next; its interval is cleared by the
    first callback that finds the socket not open, which sends no probe,
    so the interval is gone at the latest one probe period after the close,
    and an interval that is gone is not armed again.  A probe is sent only
    by a callback that finds the socket open. *)
Theorem no_probe_after_close (evs0 : list Event) (c : WS) (evs : list Event) :
  let st0 := run init evs0 in
  sockets st0 !! c = Some CLOSED ->
  let st := run st0 evs in
  pings_to c (trace st) = pings_to c (trace st0) /\
  ((clock st0 + PING_INTERVAL <= clock st)%N -> ~ armed st c) /\
  (~ armed st0 c -> ~ armed st c) /\
  (forall s,
     trace (ping_callback c s) =
       trace s ++ [if decide (sockets s !! c = Some OPEN)
                   then WsPing c else ClearInterval c] /\
     (sockets s !! c <> Some OPEN -> ~ armed (ping_callback c s) c)).
Proof.
  intros st0 Hc st.
  assert (wf st0) as Hwf by apply wf_run, wf_init.
  assert (timers_ok st0) as Hok by apply timers_ok_run, timers_ok_init.
  destruct (closed_socket_run st0 c evs Hwf Hok Hc) as (H1 & H2 & H3).
  split_and!; [exact H1 | exact H2 | exact H3 |].
  intros s. split.
  - case_decide as Ho.
    + by rewrite ping_callback_open.
    + by destruct (ping_callback_not_open c s Ho) as [-> _].
  - intros Ho. by destruct (ping_callback_not_open c s Ho) as [_ ?].
Qed.

Lemma no_probe_after_close_witness :
  let st0 := run init [EvConnection; EvClose 0%nat] in
  let st := run st0 [EvElapse 2%N; EvAgentStdout [Byte.x61]] in
  sockets st0 !! 0%nat = Some CLOSED /\
  pings_to 0%nat (trace st) = pings_to 0%nat (trace st0).
Proof.
  split; [reflexivity |].
  pose proof (no_probe_after_close [EvConnection; EvClose 0%nat] 0%nat
                [EvElapse 2%N; EvAgentStdout [Byte.x61]] eq_refl)
    as (H & _).
  exact H.
Defined.

(** ** Further properties of the session *)

Lemma open_is_current_init : open_is_current init.
Proof. intros c H. cbn in H. by rewrite lookup_empty in H. Qed.

Lemma open_is_current_dispatch st ev :
  open_is_current st -> open_is_current (dispatch st ev).
Proof.
  intros H. unfold dispatch. destruct (exited st); [done |].
  destruct ev; try done.
  - intros c Hc. rewrite accept_current.
    destruct (decide (c = next_ws st)) as [-> | Hne]; [done |].
    rewrite accept_sockets in Hc by done.
    destruct (currentClient st) as [old |] eqn:E.
    + case_decide as Hco.
      * destruct (sockets st !! c) as [[] |]; done.
      * apply H in Hc. congruence.
    + apply H in Hc. congruence.
  - destruct (live st ws); [| done].
    destruct (stdin_writable st) eqn:E.
    + by rewrite on_message_forwards.
    + by rewrite on_message_drops.
  - unfold peer_closing. case_decide as Ho; [| done].
    intros c Hc. cbn in *.
    destruct (decide (c = ws)) as [-> | Hne].
    + by rewrite lookup_insert_eq in Hc.
    + rewrite lookup_insert_ne in Hc by done. by apply H.
  - destruct (live st ws); [| done].
    unfold closed, on_close, seq_stmt, log. cbn.
    case_decide as Hcur; intros c Hc; cbn in *.
    + destruct (decide (c = ws)) as [-> | Hne].
      * by rewrite lookup_insert_eq in Hc.
      * rewrite lookup_insert_ne in Hc by done. apply H in Hc. congruence.
    + destruct (decide (c = ws)) as [-> | Hne].
      * by rewrite lookup_insert_eq in Hc.
      * rewrite lookup_insert_ne in Hc by done. by apply H.
  - by destruct (live st ws).
  - by destruct (live st ws).
  - by rewrite on_stdout_data_emits.
  - unfold stdin_end. by destruct (agent_stdin st).
  - intros c Hc. unfold on_agent_exit, seq_stmt in *.
    rewrite shutdown_current. rewrite shutdown_sockets in Hc. cbn in *.
    case_decide; [destruct (sockets st !! c) as [[] |] eqn:E |]; try done;
      by apply H.
  - intros c Hc. unfold on_agent_error, seq_stmt in *.
    rewrite shutdown_current. rewrite shutdown_sockets in Hc. cbn in *.
    case_decide; [destruct (sockets st !! c) as [[] |] eqn:E |]; try done;
      by apply H.
  - intros c Hc. unfold on_signal, seq_stmt in *.
    rewrite shutdown_current. rewrite shutdown_sockets in Hc. cbn in *.
    case_decide; [destruct (sockets st !! c) as [[] |] eqn:E |]; try done;
      by apply H.
  - destruct (elapse_same_session dt st) as [Hc Hs _ _ _ _ _ _].
    intros c. rewrite Hc, Hs. apply H.
Qed.

Lemma open_is_current_run evs : forall st,
  open_is_current st -> open_is_current (run st evs).
Proof.
  induction evs as [| ev evs IH]; intros st H; [done |].
  rewrite run_cons. by apply IH, open_is_current_dispatch.
Qed.

(** X1. In every state the proxy reaches, a socket that is open is the
    current client: an eviction or a disconnect never leaves an open
    socket behind, so at most one socket is open at any time. *)
Theorem open_socket_is_current (evs : list Event) (c c' : WS) :
  let st := run init evs in
  (sockets st !! c = Some OPEN -> currentClient st = Some c) /\
  (sockets st !! c = Some OPEN -> sockets st !! c' = Some OPEN -> c = c').
Proof.
  intros st.
  assert (open_is_current st) as H
    by apply open_is_current_run, open_is_current_init.
  split; [apply H |].
  intros Hc Hc'. apply H in Hc. apply H in Hc'. congruence.
Qed.

Lemma open_socket_is_current_witness :
  let st := run init [EvConnection; EvConnection] in
  sockets st !! 1%nat = Some OPEN /\ currentClient st = Some 1%nat.
Proof.
  split; [reflexivity |].
  apply (proj1 (open_socket_is_current [EvConnection; EvConnection]
                  1%nat 1%nat)).
  reflexivity.
Defined.

(** X2. In every state the proxy reaches, no event sends a liveness probe
    to a socket other than the current client: a peer that has been
    evicted is not probed any more, even while its interval is still
    armed. *)
Theorem probes_go_to_current_client (evs : list Event) (c : WS) (ev : Event) :
  let st := run init evs in
  currentClient st <> Some c ->
  pings_to c (trace (dispatch st ev)) = pings_to c (trace st).
Proof.
  intros st Hne. apply dispatch_pings_not_open.
  intros Ho. apply Hne.
  by apply (open_is_current_run evs init open_is_current_init).
Qed.

Lemma probes_go_to_current_client_witness :
  let st := run init [EvConnection; EvConnection] in
  currentClient st <> Some 0%nat /\
  armed st 0%nat /\
  pings_to 0%nat (trace (dispatch st (EvElapse 3%N))) = pings_to 0%nat (trace st).
Proof.
  split; [discriminate |].
  split; [apply (bool_decide_unpack _); vm_compute; exact I |].
  apply (probes_go_to_current_client [EvConnection; EvConnection] 0%nat).
  discriminate.
Defined.

(** X3. Only a new connection installs a current client: over any run of
    events without a connection, [currentClient] is what it was or null.
    In particular the disconnect of the current client does not bring back
    an earlier peer that is still connected. *)
Theorem current_client_changes_only_on_connection
    (st : State) (evs : list Event) :
  EvConnection ∉ evs ->
  currentClient (run st evs) = currentClient st \/
  currentClient (run st evs) = None.
Proof.
  revert st. induction evs as [| ev evs IH]; intros st Hn; [by left |].
  apply not_elem_of_cons in Hn as [Hne Hn]. rewrite run_cons.
  destruct (IH (dispatch st ev) Hn) as [-> | ->]; [| by right].
  by apply dispatch_current.
Qed.

Lemma current_client_changes_only_on_connection_witness :
  let st := run init [EvConnection; EvConnection] in
  let evs := [EvClose 1%nat; EvAgentStdout []] in
  (EvConnection ∉ evs) /\
  live (run st evs) 0%nat = true /\
  (currentClient (run st evs) = currentClient st \/
   currentClient (run st evs) = None).
Proof.
  intros st evs.
  assert (EvConnection ∉ evs) as Hn.
  { apply (bool_decide_unpack _). vm_compute. exact I. }
  split; [exact Hn |]. split; [reflexivity |].
  exact (current_client_changes_only_on_connection st evs Hn).
Defined.

(** ** Further properties of forwarding and of termination *)

Lemma shutdown_pipe code st :
  agent_stdin (shutdown code st) = agent_stdin st.
Proof.
  unfold shutdown, seq_stmt, log, process_exit.
  set (st1 := close_all _ _).
  assert (agent_stdin st1 = agent_stdin st) as H.
  { subst st1.
    destruct (close_all_fields (wss_clients st)
                (emit (Log (Text "Shutting down WebSocket proxy server")) st))
      as (_ & _ & _ & _ & _ & _ & Hs & _). exact Hs. }
  clearbody st1. by destruct (agent_killed _).
Qed.

(** What an event adds to the agent's stdin. *)
Lemma dispatch_written st ev :
  stdin_written (dispatch st ev) = stdin_written st ++ delivered st ev.
Proof.
  unfold dispatch, delivered. destruct (exited st); [by rewrite app_nil_r |].
  destruct ev; rewrite ?app_nil_r; try done.
  - unfold stdin_written. by destruct (accept_pipe st) as (-> & _).
  - destruct (live st ws); [| by rewrite app_nil_r]. cbn.
    destruct (stdin_writable st) eqn:E.
    + by rewrite on_message_forwards.
    + rewrite on_message_drops by done. by rewrite app_nil_r.
  - unfold peer_closing. by case_decide.
  - destruct (live st ws); [| done].
    unfold closed, on_close, seq_stmt, log. cbn. by case_decide.
  - by destruct (live st ws).
  - by destruct (live st ws).
  - by rewrite on_stdout_data_emits.
  - unfold stdin_end, stdin_written.
    destruct (agent_stdin st) eqn:E; cbn; by rewrite ?E.
  - unfold on_agent_exit, seq_stmt, stdin_written. by rewrite shutdown_pipe.
  - unfold on_agent_error, seq_stmt, stdin_written. by rewrite shutdown_pipe.
  - unfold on_signal, seq_stmt, stdin_written. by rewrite shutdown_pipe.
  - unfold stdin_written.
    by rewrite (ss_stdin _ _ (elapse_same_session dt st)).
Qed.

Lemma messages_cons ev evs :
  messages (ev :: evs) = messages [ev] ++ messages evs.
Proof. apply (omap_app _ [ev] evs). Qed.

Lemma delivered_message st ev : delivered st ev `sublist_of` messages [ev].
Proof.
  unfold delivered.
  destruct (exited st), ev; cbn; try apply sublist_nil_l.
  destruct (live st ws && stdin_writable st);
    [reflexivity | apply sublist_nil_l].
Qed.

(** X4. Over every run of events from every state, what the agent's stdin
    receives is a subsequence of the payloads of the peers' messages: the
    proxy writes no payload twice, none out of order, and nothing that no
    peer sent; what was written before stays. *)
Theorem stdin_receives_only_messages (st : State) (evs : list Event) :
  exists l, stdin_written (run st evs) = stdin_written st ++ l /\
            l `sublist_of` messages evs.
Proof.
  revert st. induction evs as [| ev evs IH]; intros st.
  - exists []. rewrite run_nil, app_nil_r. split; [done | reflexivity].
  - destruct (IH (dispatch st ev)) as (l & Hl & Hsub).
    exists (delivered st ev ++ l). rewrite run_cons, Hl, dispatch_written.
    split; [by rewrite app_assoc |].
    rewrite messages_cons.
    apply sublist_app; [apply delivered_message | exact Hsub].
Qed.

(** X5. A peer that has been evicted can still reach the agent: until the
    ["close"] event of its socket, each of its messages is written to the
    agent's stdin (while stdin is writable), although the peer is no longer
    the current client. *)
Theorem evicted_peer_still_forwarded
    (evs0 : list Event) (old : WS) (data : Buffer) :
  let st := run init evs0 in
  exited st = None ->
  currentClient st = Some old ->
  stdin_writable st = true ->
  let st' := run st [EvConnection; EvMessage old data] in
  currentClient st' = Some (next_ws st) /\
  currentClient st' <> Some old /\
  sockets st' !! old = Some CLOSING /\
  stdin_written st' = stdin_written st ++ [data].
Proof.
  intros st Hex Hcur Hw st'. subst st'.
  assert (wf st) as Hwf by apply wf_run, wf_init.
  assert (connected (sockets st) old) as Hold.
  { destruct Hwf as (_ & Hlive & _ & Hc). by apply Hlive, Hc. }
  assert (old <> next_ws st) as Hne.
  { destruct Hwf as (_ & _ & Hnext & _). destruct Hold as (rs & Hrs & _).
    assert (old < next_ws st)%nat by (apply Hnext; rewrite Hrs; eauto). lia. }
  rewrite !run_cons, run_nil, dispatch_connection by done.
  destruct (accept_pipe st) as (Hs & _ & Hex').
  assert (sockets (accept st) !! old = Some CLOSING) as Hclosing.
  { rewrite accept_sockets by done. rewrite Hcur, decide_True by done.
    destruct Hold as (rs & -> & Hrs). by destruct rs. }
  assert (live (accept st) old = true) as Hlive.
  { unfold live. by rewrite Hclosing. }
  assert (stdin_writable (accept st) = true) as Hw'.
  { unfold stdin_writable in *. by rewrite Hs. }
  pose proof (accept_current st) as Hcur'.
  rewrite Hex in Hex'.
  assert (stdin_written (accept st) = stdin_written st) as Hwr.
  { unfold stdin_written. by rewrite Hs. }
  set (st1 := accept st) in *. clearbody st1.
  unfold dispatch. rewrite Hex', Hlive.
  rewrite on_message_forwards by done. cbn.
  rewrite Hcur', Hclosing, Hwr.
  split_and!; try done. intros [= E]. by apply Hne.
Qed.

Lemma evicted_peer_still_forwarded_witness :
  let st := run init [EvConnection] in
  exited st = None /\ currentClient st = Some 0%nat /\
  stdin_writable st = true /\
  stdin_written (run st [EvConnection; EvMessage 0%nat [Byte.x61]]) =
    stdin_written st ++ [[Byte.x61]].
Proof.
  repeat (split; [reflexivity |]).
  pose proof (evicted_peer_still_forwarded [EvConnection] 0%nat [Byte.x61]
                eq_refl eq_refl eq_refl) as (_ & _ & _ & H).
  exact H.
Defined.

(** An event that is not terminal leaves the program running; a terminal
    one ends it with its code. *)
Lemma dispatch_exit_code st ev :
  exited st = None -> exited (dispatch st ev) = terminal_code ev.
Proof.
  intros Hex. unfold dispatch. rewrite Hex.
  destruct ev; cbn [terminal_code]; try done.
  - by destruct (accept_pipe st) as (_ & _ & ->).
  - destruct (live st ws); [| done].
    destruct (stdin_writable st) eqn:E.
    + by rewrite on_message_forwards.
    + by rewrite on_message_drops.
  - unfold peer_closing. by case_decide.
  - destruct (live st ws); [| done].
    unfold closed, on_close, seq_stmt, log. cbn. by case_decide.
  - by destruct (live st ws).
  - by destruct (live st ws).
  - by rewrite on_stdout_data_emits.
  - unfold stdin_end. by destruct (agent_stdin st).
  - by rewrite (ss_exited _ _ (elapse_same_session dt st)).
Qed.

(** ** The liveness probe of an open socket *)

Lemma map_fst_rearm c (t : N) (l : list (WS * N)) :
  map fst (map (fun p : WS * N => if decide (p.1 = c) then (c, t) else p) l)
  = map fst l.
Proof.
  induction l as [| [c' d] l IH]; [done |]. cbn. rewrite IH.
  case_decide as E; cbn in *; by rewrite ?E.
Qed.

Lemma map_fst_filter_ne c (l : list (WS * N)) :
  map fst (filter (fun p : WS * N => p.1 <> c) l)
  = filter (fun x => x <> c) (map fst l).
Proof.
  induction l as [| [c' d] l IH]; [done |]. cbn [map].
  destruct (decide (c' = c)) as [-> | Hne].
  - rewrite !filter_cons_False by (cbn; tauto). exact IH.
  - rewrite !filter_cons_True by done. cbn. by rewrite IH.
Qed.

Lemma fire_keys y st :
  map fst (timers (fire y st)) =
    if decide (sockets st !! y = Some OPEN)
    then map fst (timers st)
    else filter (fun x => x <> y) (map fst (timers st)).
Proof.
  case_decide as Ho.
  - destruct (fire_open y st Ho) as (_ & _ & ->). apply map_fst_rearm.
  - destruct (fire_not_open y st Ho) as (_ & _ & ->). apply map_fst_filter_ne.
Qed.

Lemma timers_wf_fire y st : timers_wf st -> timers_wf (fire y st).
Proof.
  intros (Hnd & Hopen & Hnext). unfold timers_wf.
  destruct (fire_same_session y st) as [_ Hs _ _ Hn _ _ _].
  rewrite fire_keys, Hs, Hn. case_decide as Ho; [done |]. split_and!.
  - by apply NoDup_filter.
  - intros c Hc. apply list_elem_of_filter. split; [congruence | by apply Hopen].
  - intros c [_ Hc]%list_elem_of_filter. by apply Hnext.
Qed.

Lemma timers_wf_fire_all l : forall st, timers_wf st -> timers_wf (fire_all l st).
Proof.
  induction l as [| y l IH]; intros st H; [done |].
  apply (IH (fire y st)), timers_wf_fire, H.
Qed.

Lemma timers_wf_tick st : timers_wf st -> timers_wf (tick st).
Proof.
  intros H. unfold tick, seq_stmt.
  by apply (timers_wf_fire_all _ (set_clock (clock st + 1)%N st)).
Qed.

Lemma timers_wf_elapse dt st : timers_wf st -> timers_wf (elapse dt st).
Proof.
  intros H. unfold elapse. induction dt as [| dt IH] using N.peano_ind.
  - done.
  - rewrite N.iter_succ. by apply timers_wf_tick.
Qed.

(** Apart from a new connection, no event opens a socket or allocates
    one. *)
Lemma dispatch_open_mono st ev c :
  ev <> EvConnection ->
  sockets (dispatch st ev) !! c = Some OPEN -> sockets st !! c = Some OPEN.
Proof.
  intros Hn. unfold dispatch. destruct (exited st); [done |].
  assert (forall code e,
            sockets (shutdown code (emit e st)) !! c = Some OPEN ->
            sockets st !! c = Some OPEN) as Hsd.
  { intros code e. rewrite shutdown_sockets. cbn.
    case_decide; [| done]. by destruct (sockets st !! c) as [[] |]. }
  destruct ev; try done.
  - destruct (live st ws); [| done].
    destruct (stdin_writable st) eqn:E.
    + by rewrite on_message_forwards.
    + by rewrite on_message_drops.
  - unfold peer_closing. case_decide as Ho; [| done]. cbn.
    destruct (decide (c = ws)) as [-> | Hne].
    + by rewrite lookup_insert_eq.
    + by rewrite lookup_insert_ne.
  - destruct (live st ws); [| done].
    unfold closed, on_close, seq_stmt, log. cbn.
    destruct (decide (c = ws)) as [-> | Hne].
    + case_decide; cbn; by rewrite lookup_insert_eq.
    + case_decide; cbn; by rewrite lookup_insert_ne.
  - by destruct (live st ws).
  - by destruct (live st ws).
  - by rewrite on_stdout_data_emits.
  - unfold stdin_end. by destruct (agent_stdin st).
  - exact (Hsd _ _).
  - exact (Hsd _ _).
  - exact (Hsd _ _).
  - by rewrite (ss_sockets _ _ (elapse_same_session dt st)).
Qed.

Lemma shutdown_next code st : next_ws (shutdown code st) = next_ws st.
Proof.
  unfold shutdown, seq_stmt, log, process_exit.
  set (st1 := close_all _ _).
  assert (next_ws st1 = next_ws st) as H.
  { subst st1.
    destruct (close_all_fields (wss_clients st)
                (emit (Log (Text "Shutting down WebSocket proxy server")) st))
      as (_ & _ & _ & Hn & _). exact Hn. }
  clearbody st1. by destruct (agent_killed _).
Qed.

Lemma dispatch_next st ev :
  ev <> EvConnection -> next_ws (dispatch st ev) = next_ws st.
Proof.
  intros Hn. unfold dispatch. destruct (exited st); [done |].
  destruct ev; try done.
  - destruct (live st ws); [| done].
    destruct (stdin_writable st) eqn:E.
    + by rewrite on_message_forwards.
    + by rewrite on_message_drops.
  - unfold peer_closing. by case_decide.
  - destruct (live st ws); [| done].
    unfold closed, on_close, seq_stmt, log. cbn. by case_decide.
  - by destruct (live st ws).
  - by destruct (live st ws).
  - by rewrite on_stdout_data_emits.
  - unfold stdin_end. by destruct (agent_stdin st).
  - apply (shutdown_next _ (emit _ st)).
  - apply (shutdown_next _ (emit _ st)).
  - apply (shutdown_next _ (emit _ st)).
  - apply (ss_next _ _ (elapse_same_session dt st)).
Qed.

Lemma timers_wf_accept st : timers_wf st -> timers_wf (accept st).
Proof.
  intros (Hnd & Hopen & Hnext). unfold timers_wf.
  destruct (accept_timers st) as [-> _]. rewrite accept_next, map_app.
  cbn [map fst].
  split_and!.
  - apply NoDup_app. split_and!; [done | | apply NoDup_singleton].
    intros c Hc ->%list_elem_of_singleton. apply Hnext in Hc. lia.
  - intros c Hc. apply elem_of_app.
    destruct (decide (c = next_ws st)) as [-> | Hne]; [right; by left |].
    left. apply Hopen. rewrite accept_sockets in Hc by done.
    destruct (currentClient st) as [old |]; [| done].
    case_decide; [| done]. by destruct (sockets st !! c) as [[] |].
  - intros c [Hc | ->%list_elem_of_singleton]%elem_of_app; [| lia].
    apply Hnext in Hc. lia.
Qed.

Lemma timers_wf_dispatch st ev : timers_wf st -> timers_wf (dispatch st ev).
Proof.
  intros H. destruct (exited st) as [code |] eqn:Ex.
  { rewrite dispatch_exited; [done | by rewrite Ex]. }
  destruct (decide (ev = EvConnection)) as [-> | Hc].
  { rewrite dispatch_connection by done. by apply timers_wf_accept. }
  assert ((exists dt, ev = EvElapse dt) \/ (forall dt, ev <> EvElapse dt))
    as [[dt ->] | He] by (destruct ev; eauto).
  { rewrite dispatch_elapse by done. by apply timers_wf_elapse. }
  destruct H as (Hnd & Hopen & Hnext). unfold timers_wf.
  destruct (dispatch_timers st ev Hc He) as [-> _].
  rewrite dispatch_next by done. split_and!; [done | | done].
  intros c Ho. by apply Hopen, (dispatch_open_mono st ev).
Qed.

Lemma timers_wf_run evs : forall st, timers_wf st -> timers_wf (run st evs).
Proof.
  induction evs as [| ev evs IH]; intros st H; [done |].
  rewrite run_cons. by apply IH, timers_wf_dispatch.
Qed.

Lemma timers_wf_init : timers_wf init.
Proof.
  unfold timers_wf. cbn. split_and!.
  - constructor.
  - intros c H. by rewrite lookup_empty in H.
  - by intros c H%elem_of_nil.
Qed.

Lemma timer_unique (l : list (WS * N)) c d d' :
  NoDup (map fst l) -> (c, d) ∈ l -> (c, d') ∈ l -> d = d'.
Proof.
  induction l as [| [c0 d0] l IH]; intros Hnd H1 H2.
  - by apply elem_of_nil in H1.
  - cbn in Hnd. apply NoDup_cons in Hnd as [Hc0 Hnd].
    apply elem_of_cons in H1 as [E1 | H1];
      apply elem_of_cons in H2 as [E2 | H2];
      try (inversion E1; subst); try (inversion E2; subst).
    + done.
    + exfalso. apply Hc0. apply list_elem_of_fmap. by exists (c0, d').
    + exfalso. apply Hc0. apply list_elem_of_fmap. by exists (c0, d).
    + by apply IH.
Qed.

Lemma fire_pings_other y st c :
  y <> c -> pings_to c (trace (fire y st)) = pings_to c (trace st).
Proof.
  intros Hne. destruct (decide (sockets st !! y = Some OPEN)) as [Ho | Hn].
  - destruct (fire_open y st Ho) as (-> & _).
    apply pings_to_quiet. cbn. rewrite bool_decide_eq_false_2; [done |].
    intros [= E]. done.
  - destruct (fire_not_open y st Hn) as (-> & _). by apply pings_to_quiet.
Qed.

Lemma fire_pings_self st c :
  sockets st !! c = Some OPEN ->
  pings_to c (trace (fire c st)) = pings_to c (trace st) ++ [WsPing c].
Proof.
  intros Ho. destruct (fire_open c st Ho) as (-> & _).
  rewrite pings_to_app. f_equal. unfold pings_to.
  by rewrite filter_cons_True.
Qed.

Lemma fire_entry_other y st c d :
  y <> c -> (c, d) ∈ timers st -> (c, d) ∈ timers (fire y st).
Proof.
  intros Hne Hin. destruct (decide (sockets st !! y = Some OPEN)) as [Ho | Hn].
  - destruct (fire_open y st Ho) as (_ & _ & ->).
    apply list_elem_of_fmap. exists (c, d). split; [| done].
    rewrite decide_False; [done | cbn; congruence].
  - destruct (fire_not_open y st Hn) as (_ & _ & ->).
    apply list_elem_of_filter. split; [cbn; congruence | done].
Qed.

Lemma fire_entry_self st c d :
  sockets st !! c = Some OPEN -> (c, d) ∈ timers st ->
  (c, (clock st + PING_INTERVAL)%N) ∈ timers (fire c st).
Proof.
  intros Ho Hin. destruct (fire_open c st Ho) as (_ & _ & ->).
  apply list_elem_of_fmap. exists (c, d). split; [| done].
  by rewrite decide_True.
Qed.

(** The due intervals fire: an open socket among them gets one probe and
    its interval is due again one period later; an open socket not among
    them gets none and keeps its due time. *)
Lemma fire_all_open l c d : forall st,
  NoDup l -> sockets st !! c = Some OPEN -> (c, d) ∈ timers st ->
  pings_to c (trace (fire_all l st)) =
    pings_to c (trace st) ++ (if decide (c ∈ l) then [WsPing c] else []) /\
  (c, if decide (c ∈ l) then (clock st + PING_INTERVAL)%N else d)
    ∈ timers (fire_all l st).
Proof.
  revert d. induction l as [| y l IH]; intros d st Hnd Ho Hin.
  - rewrite decide_False by apply not_elem_of_nil. cbn.
    by rewrite app_nil_r.
  - apply NoDup_cons in Hnd as [Hy Hnd].
    change (fire_all (y :: l) st) with (fire_all l (fire y st)).
    assert (sockets (fire y st) !! c = Some OPEN) as Ho'
      by by rewrite (ss_sockets _ _ (fire_same_session y st)).
    destruct (decide (y = c)) as [-> | Hne].
    + destruct (IH _ (fire c st) Hnd Ho' (fire_entry_self st c d Ho Hin))
        as [Hp He].
      destruct (decide (c ∈ l)) as [? | _]; [done |].
      destruct (decide (c ∈ c :: l)) as [_ | Hn]; [| exfalso; apply Hn; left].
      rewrite Hp, app_nil_r, fire_pings_self by done. done.
    + destruct (IH _ (fire y st) Hnd Ho' (fire_entry_other y st c d Hne Hin))
        as [Hp He].
      rewrite fire_pings_other in Hp by done. rewrite fire_clock in He.
      destruct (decide (c ∈ l)) as [Hcl | Hcl].
      * destruct (decide (c ∈ y :: l)) as [_ | Hn];
          [done | exfalso; apply Hn; by right].
      * destruct (decide (c ∈ y :: l)) as [[? | ?]%elem_of_cons | _];
          done.
Qed.

Lemma tick_open st c d :
  timers_wf st -> sockets st !! c = Some OPEN -> (c, d) ∈ timers st ->
  pings_to c (trace (tick st)) =
    pings_to c (trace st) ++
      (if decide (d = (clock st + 1)%N) then [WsPing c] else []) /\
  (c, if decide (d = (clock st + 1)%N) then (d + PING_INTERVAL)%N else d)
    ∈ timers (tick st).
Proof.
  intros (Hnd & _) Ho Hin. unfold tick, seq_stmt.
  set (l := map fst (filter (fun p : WS * N => p.2 = (clock st + 1)%N)
                       (timers st))).
  assert (NoDup l) as Hl.
  { apply (sublist_NoDup _ (map fst (timers st))); [done |].
    apply fmap_sublist, sublist_filter. }
  assert (c ∈ l <-> d = (clock st + 1)%N) as Hcl.
  { subst l. split.
    - intros ([c' d'] & -> & [Hd Hin']%list_elem_of_filter)%list_elem_of_fmap.
      cbn in *. subst d'. by apply (timer_unique (timers st) c').
    - intros ->. apply list_elem_of_fmap. exists (c, (clock st + 1)%N).
      split; [done |]. by apply list_elem_of_filter. }
  destruct (fire_all_open l c d (set_clock (clock st + 1)%N st) Hl Ho Hin)
    as [Hp He].
  fold l.
  destruct (decide (d = (clock st + 1)%N)) as [Hd | Hd];
    destruct (decide (c ∈ l)) as [Hc | Hc].
  - subst d. exact (conj Hp He).
  - exfalso. by apply Hc, Hcl.
  - exfalso. by apply Hd, Hcl.
  - exact (conj Hp He).
Qed.

Lemma elapse_add a b st : elapse (a + b) st = elapse b (elapse a st).
Proof. unfold elapse. by rewrite N.add_comm, N.iter_add. Qed.

Lemma elapse_one st : elapse 1 st = tick st.
Proof. reflexivity. Qed.

(** Before an interval is due, time passing sends no probe to its
    socket. *)
Lemma elapse_quiet c d k : forall st,
  timers_wf st -> sockets st !! c = Some OPEN -> (c, d) ∈ timers st ->
  (clock st + k < d)%N ->
  pings_to c (trace (elapse k st)) = pings_to c (trace st) /\
  (c, d) ∈ timers (elapse k st).
Proof.
  induction k as [| k IH] using N.peano_ind; intros st Hwf Ho Hin Hlt.
  - done.
  - destruct (IH st Hwf Ho Hin ltac:(lia)) as [Hp He].
    pose proof (timers_wf_elapse k st Hwf) as Hwf'.
    pose proof (elapse_clock k st) as Hck.
    assert (sockets (elapse k st) !! c = Some OPEN) as Ho'
      by by rewrite (ss_sockets _ _ (elapse_same_session k st)).
    rewrite <- N.add_1_r, elapse_add, elapse_one.
    destruct (tick_open (elapse k st) c d Hwf' Ho' He) as [Hp' He'].
    destruct (decide (d = (clock (elapse k st) + 1)%N)) as [? | _]; [lia |].
    rewrite Hp', app_nil_r. done.
Qed.

(** Over one period, an open socket is probed exactly once. *)
Lemma elapse_period st c :
  timers_wf st -> timers_ok st -> sockets st !! c = Some OPEN ->
  pings_to c (trace (elapse PING_INTERVAL st)) =
    pings_to c (trace st) ++ [WsPing c].
Proof.
  intros Hwf Hok Ho.
  assert (exists d, (c, d) ∈ timers st) as [d Hin].
  { destruct Hwf as (_ & Hopen & _).
    apply Hopen in Ho as ([c' d] & -> & Hin)%list_elem_of_fmap. by exists d. }
  pose proof (Hok c d Hin) as Hd.
  set (k1 := (d - clock st - 1)%N).
  set (k2 := (clock st + PING_INTERVAL - d)%N).
  replace PING_INTERVAL with (k1 + 1 + k2)%N at 1 by (subst k1 k2; lia).
  rewrite !elapse_add, elapse_one.
  destruct (elapse_quiet c d k1 st Hwf Ho Hin ltac:(subst k1; lia)) as [Hp1 He1].
  pose proof (timers_wf_elapse k1 st Hwf) as Hwf1.
  pose proof (elapse_clock k1 st) as Hck1.
  assert (sockets (elapse k1 st) !! c = Some OPEN) as Ho1
    by by rewrite (ss_sockets _ _ (elapse_same_session k1 st)).
  destruct (tick_open (elapse k1 st) c d Hwf1 Ho1 He1) as [Hp2 He2].
  destruct (decide (d = (clock (elapse k1 st) + 1)%N)) as [_ | Hn];
    [| subst k1; lia].
  pose proof (timers_wf_tick _ Hwf1) as Hwf2.
  assert (sockets (tick (elapse k1 st)) !! c = Some OPEN) as Ho2
    by by rewrite (ss_sockets _ _ (tick_same_session (elapse k1 st))).
  destruct (elapse_quiet c (d + PING_INTERVAL)%N k2 (tick (elapse k1 st))
              Hwf2 Ho2 He2) as [Hp3 _].
  { rewrite tick_clock, Hck1. subst k1 k2. lia. }
  by rewrite Hp3, Hp2, Hp1.
Qed.

Lemma elapse_periods n : forall st c,
  timers_wf st -> timers_ok st -> sockets st !! c = Some OPEN ->
  pings_to c (trace (elapse (n * PING_INTERVAL) st)) =
    pings_to c (trace st) ++ replicate (N.to_nat n) (WsPing c).
Proof.
  induction n as [| n IH] using N.peano_ind; intros st c Hwf Hok Ho.
  - cbn. by rewrite app_nil_r.
  - replace (N.succ n * PING_INTERVAL)%N
      with (n * PING_INTERVAL + PING_INTERVAL)%N by lia.
    rewrite elapse_add, elapse_period.
    + rewrite IH by done. rewrite N2Nat.inj_succ, <- app_assoc.
      f_equal. symmetry. apply replicate_S_end.
    + by apply timers_wf_elapse.
    + by apply timers_ok_elapse.
    + by rewrite (ss_sockets _ _ (elapse_same_session _ st)).
Qed.

(** X7. While a socket stays open and nothing but time passes, it is
    probed exactly once per period of 30000 ms: over [n] periods, from any
    state the running proxy reaches, exactly [n] probes are sent to it. *)
Theorem open_socket_probed_once_per_period
    (evs0 : list Event) (c : WS) (n : N) :
  let st := run init evs0 in
  exited st = None ->
  sockets st !! c = Some OPEN ->
  pings_to c (trace (dispatch st (EvElapse (n * PING_INTERVAL)))) =
    pings_to c (trace st) ++ replicate (N.to_nat n) (WsPing c).
Proof.
  intros st Hex Ho. rewrite dispatch_elapse by done.
  apply elapse_periods; [| | done].
  - apply timers_wf_run, timers_wf_init.
  - apply timers_ok_run, timers_ok_init.
Qed.

Lemma open_socket_probed_once_per_period_witness :
  let st := run init [EvConnection; EvElapse 7%N] in
  exited st = None /\ sockets st !! 0%nat = Some OPEN /\
  pings_to 0%nat (trace (dispatch st (EvElapse (2 * PING_INTERVAL)))) =
    pings_to 0%nat (trace st) ++ replicate (N.to_nat 2) (WsPing 0%nat).
Proof.
  split; [reflexivity |]. split; [reflexivity |].
  exact (open_socket_probed_once_per_period [EvConnection; EvElapse 7%N]
           0%nat 2%N eq_refl eq_refl).
Defined.

(** ** Configuration *)

(** X8. The agent inherits the environment of the proxy, every variable
    unchanged, except [ACP_DEBUG], which is always set, to ["true"] or
    ["false"]: to ["true"] exactly when the [debug] option is true or the
    proxy's own [ACP_DEBUG] is the string ["true"].  A proxy given no
    [debug] option and that environment would have the same debug flag. *)
Theorem agent_env_debug
    (number : Type) (o : ProxyOptions number) (env : gmap string string)
    (k : string) :
  (k <> "ACP_DEBUG"%string -> agent_env o env !! k = env !! k) /\
  agent_env o env !! "ACP_DEBUG"%string =
    Some (if proxy_debug o env then "true"%string else "false"%string) /\
  (proxy_debug o env = true <->
   debug o = Some true \/ env !! "ACP_DEBUG"%string = Some "true"%string) /\
  proxy_debug (mkProxyOptions (@None number) None None) (agent_env o env) =
    proxy_debug o env.
Proof.
  unfold agent_env. split_and!.
  - intros Hk. by rewrite lookup_insert_ne.
  - by rewrite lookup_insert_eq.
  - unfold proxy_debug, resolved_debug.
    rewrite orb_true_iff, bool_decide_eq_true.
    destruct (debug o) as [[] |]; cbn; split; intros [H | H];
      first [done | by left | by right].
  - unfold proxy_debug at 1. unfold resolved_debug. cbn.
    rewrite lookup_insert_eq.
    destruct (proxy_debug o env).
    + by rewrite bool_decide_eq_true_2.
    + by rewrite bool_decide_eq_false_2.
Qed.

Lemma agent_env_debug_witness :
  let o := mkProxyOptions (Some 9000%Z) None None in
  let env : gmap string string :=
    <["ACP_DEBUG"%string := "1"%string]> (<["HOME"%string := "/root"%string]> ∅) in
  "HOME"%string <> "ACP_DEBUG"%string /\
  agent_env o env !! "HOME"%string = env !! "HOME"%string /\
  agent_env o env !! "ACP_DEBUG"%string = Some "false"%string.
Proof.
  intros o env. split; [discriminate |].
  pose proof (agent_env_debug Z o env "HOME"%string) as (H1 & H2 & _).
  split; [apply H1; discriminate | exact H2].
Defined.

(** X9. The entry point treats a variable that is set to the empty string
    like one that is unset: for [WS_PORT] the text ["8765"] is parsed, for
    [WS_HOST] the host is ["localhost"].  The host it passes is never
    empty; the port it passes is whatever [parseInt] yields, so the
    constructor's own default port is not used; and since it passes no
    [debug] option, debugging is on exactly when [ACP_DEBUG] is the string
    ["true"]. *)
Theorem cli_options_defaults
    (number : Type) (number_8765 : number) (parseInt : string -> number)
    (env : gmap string string) :
  cli_options parseInt (<["WS_PORT"%string := ""%string]> env) =
    cli_options parseInt (delete "WS_PORT"%string env) /\
  cli_options parseInt (<["WS_HOST"%string := ""%string]> env) =
    cli_options parseInt (delete "WS_HOST"%string env) /\
  cli_options parseInt (delete "WS_PORT"%string (delete "WS_HOST"%string env)) =
    mkProxyOptions (Some (parseInt "8765"%string)) (Some "localhost"%string) None /\
  resolved_host (cli_options parseInt env) <> ""%string /\
  resolved_port number_8765 (cli_options parseInt env) =
    parseInt (or_default (env !! "WS_PORT"%string) "8765"%string) /\
  proxy_debug (cli_options parseInt env) env =
    bool_decide (env !! "ACP_DEBUG"%string = Some "true"%string).
Proof.
  unfold cli_options. split_and!.
  - rewrite lookup_insert_eq, lookup_delete_eq.
    rewrite lookup_insert_ne, lookup_delete_ne by done. reflexivity.
  - rewrite lookup_insert_eq, lookup_delete_eq.
    rewrite lookup_insert_ne, lookup_delete_ne by done. reflexivity.
  - rewrite lookup_delete_eq.
    rewrite lookup_delete_ne, lookup_delete_eq by done. reflexivity.
  - unfold resolved_host, or_default. cbn.
    destruct (env !! "WS_HOST"%string) as [h |]; [| done].
    by case_decide.
  - reflexivity.
  - reflexivity.
Qed.

(** ** Killing the agent *)

Lemma shutdown_killed code st : agent_killed (shutdown code st) = true.
Proof. by destruct (shutdown_flags code st) as [_ ->]. Qed.

Lemma shutdown_tail code st :
  agent_killed st = false ->
  exists pre, trace (shutdown code st) =
                pre ++ [WssClose; AgentKill; ProcessExit code].
Proof.
  intros Hk. rewrite shutdown_trace, Hk.
  exists (trace st ++ [Log (Text "Shutting down WebSocket proxy server")]
            ++ map WsClose (wss_clients st)).
  by rewrite <- !app_assoc.
Qed.

(** Only a shutdown sets [agent.killed]. *)
Lemma dispatch_killed st ev :
  terminal_code ev = None ->
  agent_killed (dispatch st ev) = agent_killed st.
Proof.
  intros Ht. unfold dispatch. destruct (exited st); [done |].
  destruct ev; try done.
  - by destruct (accept_pipe st) as (_ & -> & _).
  - destruct (live st ws); [| done].
    destruct (stdin_writable st) eqn:E.
    + by rewrite on_message_forwards.
    + by rewrite on_message_drops.
  - unfold peer_closing. by case_decide.
  - destruct (live st ws); [| done].
    unfold closed, on_close, seq_stmt, log. cbn. by case_decide.
  - by destruct (live st ws).
  - by destruct (live st ws).
  - by rewrite on_stdout_data_emits.
  - unfold stdin_end. by destruct (agent_stdin st).
  - by rewrite (ss_killed _ _ (elapse_same_session dt st)).
Qed.

Lemma running_not_killed evs : forall st,
  (exited st = None -> agent_killed st = false) ->
  exited (run st evs) = None -> agent_killed (run st evs) = false.
Proof.
  induction evs as [| ev evs IH]; intros st H Hex; [by apply H |].
  rewrite run_cons in *. apply IH; [| done].
  intros Hex'. destruct (exited st) as [code |] eqn:Ex.
  { rewrite dispatch_exited in Hex' by by rewrite Ex. congruence. }
  rewrite dispatch_exit_code in Hex' by done.
  rewrite dispatch_killed by done. by apply H.
Qed.

(** X10. Every shutdown of the running proxy kills the agent: in the
    states the proxy reaches, [agent.killed] is false as long as the proxy
    runs, so the guard before [agent.kill()] never skips it, also when the
    shutdown is caused by the agent's own exit.  The last three actions of
    the proxy are closing the server, killing the agent and
    [process.exit]. *)
Theorem shutdown_always_kills_agent
    (evs : list Event) (ev : Event) (code : Z) :
  let st := run init evs in
  exited st = None ->
  terminal_code ev = Some code ->
  agent_killed st = false /\
  exists pre, trace (dispatch st ev) =
                pre ++ [WssClose; AgentKill; ProcessExit code].
Proof.
  intros st Hex Ht.
  assert (agent_killed st = false) as Hk by by apply running_not_killed.
  split; [exact Hk |].
  destruct ev; try done; cbn in Ht; injection Ht as <-.
  - rewrite dispatch_agent_exit by done. by apply shutdown_tail.
  - rewrite dispatch_agent_error by done. by apply shutdown_tail.
  - rewrite dispatch_signal by done. by apply shutdown_tail.
Qed.

Lemma shutdown_always_kills_agent_witness :
  let st := run init [EvConnection] in
  exited st = None /\ terminal_code (EvAgentExit (Some 2)) = Some 2 /\
  agent_killed st = false.
Proof.
  split; [reflexivity |]. split; [reflexivity |].
  exact (proj1 (shutdown_always_kills_agent [EvConnection]
                  (EvAgentExit (Some 2)) 2 eq_refl eq_refl)).
Defined.

(** ** Messages of a connected peer among those of other peers *)

Lemma delivered_from_payloads st ev :
  map snd (delivered_from st ev) = delivered st ev.
Proof.
  unfold delivered_from, delivered.
  destruct (exited st), ev; try done.
  by destruct (live st ws && stdin_writable st).
Qed.

Lemma tagged_cons ev evs : tagged (ev :: evs) = tagged [ev] ++ tagged evs.
Proof. apply (omap_app _ [ev] evs). Qed.

Lemma delivered_from_tagged st ev : delivered_from st ev `sublist_of` tagged [ev].
Proof.
  unfold delivered_from.
  destruct (exited st), ev; cbn; try apply sublist_nil_l.
  destruct (live st ws && stdin_writable st);
    [reflexivity | apply sublist_nil_l].
Qed.

(** While the program runs, [ws] is connected and stdin is writable, every
    message of [ws] is delivered. *)
Lemma delivered_from_peer st ws ev :
  exited st = None -> live st ws = true -> stdin_writable st = true ->
  filter (fun p : WS * Buffer => p.1 = ws) (delivered_from st ev) =
    map (pair ws) (inbound ws [ev]).
Proof.
  intros Hex Hl Hw. unfold delivered_from. rewrite Hex, Hw.
  destruct ev; try done. cbn.
  destruct (decide (ws0 = ws)) as [-> | Hne].
  - rewrite Hl. cbn [andb map]. by rewrite filter_cons_True.
  - destruct (live st ws0); cbn [andb map]; [| done].
    by rewrite filter_cons_False.
Qed.

Lemma dispatch_open st ws ev :
  exited st = None -> live st ws = true -> stdin_writable st = true ->
  keeps_open ws ev = true ->
  exited (dispatch st ev) = None /\
  live (dispatch st ev) ws = true /\
  stdin_writable (dispatch st ev) = true.
Proof.
  intros Hex Hl Hw Hk.
  assert ((exists c d, ev = EvMessage c d) \/ keeps_pipe ws ev = true)
    as [(c & d & ->) | Hp] by (destruct ev; eauto).
  - unfold dispatch. rewrite Hex. destruct (live st c); [| done].
    by rewrite on_message_forwards.
  - by destruct (dispatch_pipe st ws ev Hex Hl Hw Hp) as (? & ? & ? & _).
Qed.

(** Over a run during which [ws] stays connected and stdin stays
    writable, what stdin receives is the payloads of a subsequence of the
    messages, and that subsequence holds every message of [ws]. *)
Lemma run_open ws evs : forall st,
  exited st = None -> live st ws = true -> stdin_writable st = true ->
  forallb (keeps_open ws) evs = true ->
  stdin_writable (run st evs) = true /\
  exists t, stdin_written (run st evs) = stdin_written st ++ map snd t /\
            t `sublist_of` tagged evs /\
            filter (fun p : WS * Buffer => p.1 = ws) t =
              map (pair ws) (inbound ws evs).
Proof.
  induction evs as [| ev evs IH]; intros st Hex Hl Hw Hk.
  - rewrite run_nil. split; [done |]. exists []. cbn.
    rewrite app_nil_r. split_and!; [done | reflexivity | done].
  - cbn in Hk. apply andb_prop in Hk as [Hk1 Hk2].
    destruct (dispatch_open st ws ev Hex Hl Hw Hk1) as (Hex' & Hl' & Hw').
    destruct (IH _ Hex' Hl' Hw' Hk2) as (Hwr & t & Ht & Hsub & Hf).
    rewrite run_cons. split; [exact Hwr |].
    exists (delivered_from st ev ++ t). split_and!.
    + rewrite Ht, dispatch_written, map_app, delivered_from_payloads.
      by rewrite app_assoc.
    + rewrite tagged_cons.
      apply sublist_app; [apply delivered_from_tagged | exact Hsub].
    + rewrite filter_app, Hf, delivered_from_peer by done.
      by rewrite (inbound_cons ws ev evs), map_app.
Qed.

(** C4. The ["message"] listener writes the payload, unchanged, to the
    agent's stdin exactly when stdin exists and is writable; otherwise it
    logs a warning and changes nothing else, so the payload is neither
    kept nor retried.  Consequently, over any run of events during which
    the peer stays connected and stdin stays writable, whatever other
    peers send meanwhile, stdin receives the payloads of a subsequence of
    the messages that holds every message of the peer: the peer's
    payloads arrive unchanged and in order.  When no other peer sends
    during the run, stdin receives exactly the peer's payloads. *)
Theorem inbound_forwarding (st : State) (ws : WS) (data : Buffer) :
  on_message ws data st =
    (if stdin_writable st
     then set_agent_stdin
            (Some (mkStdin true (stdin_written st ++ [data])))
            (emit (StdinWrite data) (emit (Log (ClientToAgent data)) st))
     else emit (Log (Text "Warning: Agent stdin is not writable"))
            (emit (Log (ClientToAgent data)) st)) /\
  (forall evs,
     exited st = None -> live st ws = true -> stdin_writable st = true ->
     forallb (keeps_open ws) evs = true ->
     stdin_writable (run st evs) = true /\
     exists t, stdin_written (run st evs) = stdin_written st ++ map snd t /\
               t `sublist_of` tagged evs /\
               filter (fun p : WS * Buffer => p.1 = ws) t =
                 map (pair ws) (inbound ws evs)) /\
  (forall evs,
     exited st = None -> live st ws = true -> stdin_writable st = true ->
     forallb (keeps_pipe ws) evs = true ->
     stdin_writable (run st evs) = true /\
     stdin_written (run st evs) = stdin_written st ++ inbound ws evs).
Proof.
  split_and!.
  - destruct (stdin_writable st) eqn:E.
    + by apply on_message_forwards.
    + by apply on_message_drops.
  - intros evs. apply run_open.
  - intros evs. apply run_pipe.
Qed.

Lemma inbound_forwarding_witness :
  let st := run init [EvConnection] in
  let evs := [EvMessage 0%nat [Byte.x61]; EvConnection;
              EvMessage 1%nat [Byte.x62]; EvMessage 0%nat [Byte.x63]] in
  exited st = None /\ live st 0%nat = true /\ stdin_writable st = true /\
  forallb (keeps_open 0%nat) evs = true /\
  forallb (keeps_pipe 0%nat) evs = false /\
  stdin_written (run st evs) = [[Byte.x61]; [Byte.x62]; [Byte.x63]] /\
  exists t, stdin_written (run st evs) = stdin_written st ++ map snd t /\
            t `sublist_of` tagged evs /\
            filter (fun p : WS * Buffer => p.1 = 0%nat) t =
              map (pair 0%nat) (inbound 0%nat evs).
Proof.
  intros st evs. repeat (split; [reflexivity |]).
  pose proof (proj1 (proj2 (inbound_forwarding st 0%nat [])) evs
                eq_refl eq_refl eq_refl eq_refl) as [_ H].
  exact H.
Defined.

(** ** What cancels an interval *)

Lemma clears_of_quiet c tr l :
  forallb (fun e => negb (bool_decide (e = ClearInterval c))) l = true ->
  clears_of c (tr ++ l) = clears_of c tr.
Proof.
  intros H. unfold clears_of. rewrite filter_app.
  assert (filter (fun e => e = ClearInterval c) l = []) as ->;
    [| by rewrite app_nil_r].
  induction l as [| e l IH]; [done |]. cbn in H.
  apply andb_prop in H as [He Hl].
  rewrite filter_cons_False; [by apply IH |].
  intros ->. by rewrite bool_decide_eq_true_2 in He.
Qed.

Lemma clears_of_app c tr1 tr2 :
  clears_of c (tr1 ++ tr2) = clears_of c tr1 ++ clears_of c tr2.
Proof. apply filter_app. Qed.

Lemma clears_of_closes c l : clears_of c (map WsClose l) = [].
Proof.
  induction l as [| x l IH]; [done |]. unfold clears_of in *. simpl map.
  rewrite filter_cons_False; done.
Qed.

Lemma shutdown_clears code st c :
  clears_of c (trace (shutdown code st)) = clears_of c (trace st).
Proof.
  rewrite shutdown_trace, !clears_of_app, clears_of_closes.
  destruct (agent_killed st); cbn; by rewrite app_nil_r.
Qed.

(** No listener of the proxy calls [clearInterval]: an event other than
    time passing leaves every armed interval armed. *)
Lemma dispatch_keeps_timers st ev :
  (forall dt, ev <> EvElapse dt) ->
  (forall p, p ∈ timers st -> p ∈ timers (dispatch st ev)) /\
  (forall c, clears_of c (trace (dispatch st ev)) = clears_of c (trace st)).
Proof.
  intros He. destruct (exited st) as [code |] eqn:Ex.
  { rewrite dispatch_exited; [done | by rewrite Ex]. }
  split.
  - destruct (decide (ev = EvConnection)) as [-> | Hc].
    + rewrite dispatch_connection by done.
      destruct (accept_timers st) as [-> _]. intros p Hp.
      apply elem_of_app. by left.
    + by destruct (dispatch_timers st ev Hc He) as [-> _].
  - intros c. unfold dispatch. rewrite Ex. destruct ev.
    + rewrite accept_trace.
      destruct (currentClient st); by apply clears_of_quiet.
    + destruct (live st ws); [| done]. rewrite on_message_trace.
      destruct (stdin_writable st); by apply clears_of_quiet.
    + unfold peer_closing. by case_decide.
    + destruct (live st ws); [| done]. rewrite closed_trace.
      case_decide; by apply clears_of_quiet.
    + destruct (live st ws); [| done]. by apply clears_of_quiet.
    + destruct (live st ws); [| done]. by apply clears_of_quiet.
    + by apply clears_of_quiet.
    + rewrite on_stdout_data_trace.
      destruct (currentClient st); [case_decide |]; by apply clears_of_quiet.
    + unfold stdin_end. by destruct (agent_stdin st).
    + unfold on_agent_exit, seq_stmt. rewrite shutdown_clears.
      by apply clears_of_quiet.
    + unfold on_agent_error, seq_stmt. rewrite shutdown_clears.
      by apply clears_of_quiet.
    + unfold on_signal, seq_stmt. rewrite shutdown_clears.
      by apply clears_of_quiet.
    + by specialize (He dt).
Qed.

(** The callback of the interval of another socket leaves this one
    alone. *)
Lemma fire_other_keeps y st c :
  y <> c ->
  (forall d, (c, d) ∈ timers st -> (c, d) ∈ timers (fire y st)) /\
  clears_of c (trace (fire y st)) = clears_of c (trace st).
Proof.
  intros Hne. split.
  - intros d. by apply fire_entry_other.
  - destruct (decide (sockets st !! y = Some OPEN)) as [Ho | Hn].
    + destruct (fire_open y st Ho) as (-> & _). by apply clears_of_quiet.
    + destruct (fire_not_open y st Hn) as (-> & _).
      apply clears_of_quiet. cbn. rewrite bool_decide_eq_false_2; [done |].
      intros [= E]. done.
Qed.

(** While a socket is open, time passing does not cancel its
    interval. *)
Lemma fire_open_keeps y st c :
  sockets st !! c = Some OPEN ->
  (armed st c -> armed (fire y st) c) /\
  clears_of c (trace (fire y st)) = clears_of c (trace st).
Proof.
  intros Ho. split.
  - unfold armed. rewrite fire_keys. case_decide as Hy; [done |].
    intros Hc. apply list_elem_of_filter. split; [congruence | done].
  - destruct (decide (y = c)) as [-> | Hne].
    + destruct (fire_open c st Ho) as (-> & _). by apply clears_of_quiet.
    + by apply fire_other_keeps.
Qed.

Lemma fire_all_open_keeps l c : forall st,
  sockets st !! c = Some OPEN ->
  (armed st c -> armed (fire_all l st) c) /\
  clears_of c (trace (fire_all l st)) = clears_of c (trace st).
Proof.
  induction l as [| y l IH]; intros st Ho; [done |].
  change (fire_all (y :: l) st) with (fire_all l (fire y st)).
  destruct (fire_open_keeps y st c Ho) as [Ha Hc].
  destruct (IH (fire y st)) as [Ha' Hc'].
  { by rewrite (ss_sockets _ _ (fire_same_session y st)). }
  split; [auto | congruence].
Qed.

Lemma tick_open_keeps st c :
  sockets st !! c = Some OPEN ->
  (armed st c -> armed (tick st) c) /\
  clears_of c (trace (tick st)) = clears_of c (trace st).
Proof.
  intros Ho. unfold tick, seq_stmt.
  by apply (fire_all_open_keeps _ c (set_clock (clock st + 1)%N st)).
Qed.

Lemma elapse_open_keeps dt st c :
  sockets st !! c = Some OPEN ->
  (armed st c -> armed (elapse dt st) c) /\
  clears_of c (trace (elapse dt st)) = clears_of c (trace st).
Proof.
  intros Ho. induction dt as [| dt IH] using N.peano_ind; [done |].
  destruct IH as [Ha Hc].
  rewrite <- N.add_1_r, elapse_add, elapse_one.
  destruct (tick_open_keeps (elapse dt st) c) as [Ha' Hc'].
  { by rewrite (ss_sockets _ _ (elapse_same_session dt st)). }
  split; [auto | congruence].
Qed.

(** C8, as the code has it.  The ["close"] event of a session does not
    cancel the session's liveness timer: it closes the socket, leaves every
    armed interval as it was and calls no [clearInterval].  The timer is
    cancelled only by its own callback, through the open-check: run for a
    socket that is not open, the callback clears the interval and sends no
    probe, so the interval is gone at the latest one probe period after
    the close; no event other than time passing cancels an interval or
    calls [clearInterval], the callback of another socket's interval
    leaves this one alone, and while a socket is open time passing does
    not cancel its interval. *)
Theorem interval_cleared_by_callback
    (evs0 : list Event) (ws : WS) (evs : list Event) :
  let st := run init evs0 in
  exited st = None -> live st ws = true ->
  let st' := dispatch st (EvClose ws) in
  sockets st' !! ws = Some CLOSED /\
  timers st' = timers st /\
  trace st' =
    trace st ++
      (if decide (currentClient st = Some ws)
       then [Log (Text "Client disconnected"); SetCurrentClient None]
       else [Log (Text "Client disconnected")]) /\
  (forall s, sockets s !! ws <> Some OPEN ->
     trace (ping_callback ws s) = trace s ++ [ClearInterval ws] /\
     ~ armed (ping_callback ws s) ws) /\
  ((clock st' + PING_INTERVAL <= clock (run st' evs))%N ->
   ~ armed (run st' evs) ws) /\
  (forall s ev, (forall dt, ev <> EvElapse dt) ->
     (forall p, p ∈ timers s -> p ∈ timers (dispatch s ev)) /\
     (forall c, clears_of c (trace (dispatch s ev)) = clears_of c (trace s))) /\
  (forall s y c, y <> c ->
     (forall d, (c, d) ∈ timers s -> (c, d) ∈ timers (fire y s)) /\
     clears_of c (trace (fire y s)) = clears_of c (trace s)) /\
  (forall s dt c, sockets s !! c = Some OPEN ->
     (armed s c -> armed (elapse dt s) c) /\
     clears_of c (trace (elapse dt s)) = clears_of c (trace s)).
Proof.
  intros st Hex Hl st'.
  assert (wf st') as Hwf by apply wf_dispatch, wf_run, wf_init.
  assert (timers_ok st') as Hok
    by apply timers_ok_dispatch, timers_ok_run, timers_ok_init.
  assert (sockets st' !! ws = Some CLOSED) as Hc
    by by apply dispatch_close_sockets.
  subst st'. split_and!.
  - exact Hc.
  - by destruct (dispatch_timers st (EvClose ws)) as [-> _].
  - unfold dispatch. rewrite Hex, Hl. apply closed_trace.
  - intros s. apply ping_callback_not_open.
  - by destruct (closed_socket_run _ ws evs Hwf Hok Hc) as (_ & H & _).
  - intros s ev. apply dispatch_keeps_timers.
  - intros s y c. apply fire_other_keeps.
  - intros s dt c. apply elapse_open_keeps.
Qed.

Lemma interval_cleared_by_callback_witness :
  let st := run init [EvConnection] in
  exited st = None /\ live st 0%nat = true /\
  (let st' := dispatch st (EvClose 0%nat) in
   sockets st' !! 0%nat = Some CLOSED /\ timers st' = timers st).
Proof.
  split; [reflexivity |]. split; [reflexivity |].
  pose proof (interval_cleared_by_callback [EvConnection] 0%nat []
                eq_refl eq_refl) as (H1 & H2 & _).
  split; [exact H1 | exact H2].
Defined.

(** ** The calls of [process.exit] *)

Lemma exit_calls_app tr1 tr2 :
  exit_calls (tr1 ++ tr2) = exit_calls tr1 ++ exit_calls tr2.
Proof. apply omap_app. Qed.

Lemma exit_calls_quiet tr l :
  exit_calls l = [] -> exit_calls (tr ++ l) = exit_calls tr.
Proof. intros H. by rewrite exit_calls_app, H, app_nil_r. Qed.

Lemma exit_calls_closes l : exit_calls (map WsClose l) = [].
Proof. induction l as [| c l IH]; cbn; done. Qed.

Lemma shutdown_exit_calls code st :
  exit_calls (trace (shutdown code st)) = exit_calls (trace st) ++ [code].
Proof.
  rewrite shutdown_trace, !exit_calls_app, exit_calls_closes.
  by destruct (agent_killed st).
Qed.

Lemma fire_exit_calls y st :
  exit_calls (trace (fire y st)) = exit_calls (trace st).
Proof.
  destruct (decide (sockets st !! y = Some OPEN)) as [H | H].
  - destruct (fire_open y st H) as (-> & _). rewrite exit_calls_app. cbn.
    by rewrite app_nil_r.
  - destruct (fire_not_open y st H) as (-> & _). rewrite exit_calls_app. cbn.
    by rewrite app_nil_r.
Qed.

Lemma fire_all_exit_calls l : forall st,
  exit_calls (trace (fire_all l st)) = exit_calls (trace st).
Proof.
  induction l as [| y l IH]; intros st; [done |].
  change (fire_all (y :: l) st) with (fire_all l (fire y st)).
  by rewrite IH, fire_exit_calls.
Qed.

Lemma elapse_exit_calls dt st :
  exit_calls (trace (elapse dt st)) = exit_calls (trace st).
Proof.
  induction dt as [| dt IH] using N.peano_ind; [done |].
  rewrite <- N.add_1_r, elapse_add, elapse_one. unfold tick, seq_stmt.
  rewrite (fire_all_exit_calls _ (set_clock _ (elapse dt st))). exact IH.
Qed.

(** The listeners of the terminal events call [process.exit], once, with
    the code of the event; no other listener calls it. *)
Lemma dispatch_exit_calls st ev :
  exited st = None ->
  exit_calls (trace (dispatch st ev)) =
    exit_calls (trace st) ++ option_list (terminal_code ev).
Proof.
  intros Hex. unfold dispatch. rewrite Hex.
  destruct ev; cbn [terminal_code option_list]; rewrite ?app_nil_r.
  - rewrite accept_trace.
    destruct (currentClient st); by apply exit_calls_quiet.
  - destruct (live st ws); [| done]. rewrite on_message_trace.
    destruct (stdin_writable st); by apply exit_calls_quiet.
  - unfold peer_closing. by case_decide.
  - destruct (live st ws); [| done]. rewrite closed_trace.
    case_decide; by apply exit_calls_quiet.
  - destruct (live st ws); [| done]. by apply exit_calls_quiet.
  - destruct (live st ws); [| done]. by apply exit_calls_quiet.
  - by apply exit_calls_quiet.
  - rewrite on_stdout_data_trace.
    destruct (currentClient st); [case_decide |]; by apply exit_calls_quiet.
  - unfold stdin_end. by destruct (agent_stdin st).
  - unfold on_agent_exit, seq_stmt. rewrite shutdown_exit_calls.
    f_equal. by apply exit_calls_quiet.
  - unfold on_agent_error, seq_stmt. rewrite shutdown_exit_calls.
    f_equal. by apply exit_calls_quiet.
  - unfold on_signal, seq_stmt. rewrite shutdown_exit_calls.
    f_equal. by apply exit_calls_quiet.
  - apply elapse_exit_calls.
Qed.

(** X6. The proxy calls [process.exit] only in its listeners of the
    agent's ["exit"] and ["error"] events and of the two signals: over any
    run of the events of the model, the calls of [process.exit] are none
    when the run has no such event, and otherwise exactly one, made at the
    first such event with its code ([code || 0], 1, or 0).  No listener
    of a connection, message, disconnect, socket or server error, pong,
    agent output or timer calls it. *)
Theorem process_exit_called_only_on_terminal_event (evs : list Event) :
  exit_calls (trace (run init evs)) =
    option_list (head (omap terminal_code evs)).
Proof.
  assert (forall st, exited st = None ->
            exit_calls (trace (run st evs)) =
              exit_calls (trace st)
                ++ option_list (head (omap terminal_code evs))) as H.
  { induction evs as [| ev evs IH]; intros st Hex.
    - rewrite run_nil. cbn. by rewrite app_nil_r.
    - rewrite run_cons.
      pose proof (dispatch_exit_code st ev Hex) as Hd.
      pose proof (dispatch_exit_calls st ev Hex) as Hc. cbn [omap list_omap].
      destruct (terminal_code ev) as [code |] eqn:E.
      + rewrite run_exited by by rewrite Hd. exact Hc.
      + rewrite IH by done. rewrite Hc. cbn. by rewrite app_nil_r. }
  by apply H.
Qed.
